(** * Winnowing fingerprinter of the Pascal plagiarism detector

    A shallow embedding of the hashing and matching core of the detector
    (TokenHash, RollingHash, WinnowFilter, Region, Range, the comparison and
    clustering of [PascalPlagiarismDetector], [PascalFingerprinter],
    [SharedFingerprint] and [FingerprintIndex.addFiles]) and the proofs of
    its documented properties.

    Conventions of the embedding.
    - A JavaScript number that holds an integer is a [Z].  The operator [%]
      truncates towards zero and is [Z.rem]; the bit operators work on the
      32-bit integer value of their operand, written out with [toInt32].
      Theorems named [*_arithmetic_is_exact] bound the intermediate
      products by [MAX_SAFE_INTEGER], where double arithmetic is exact.
    - A string is the list of its UTF-16 code units (what [charCodeAt]
      returns), each a natural number.
    - An array is a list; [a[i]] is the total lookup [a !!! i], and the
      invariants below show every index used to be within bounds.  Where
      the source tests the element for [undefined], the lookup is
      [at_index], with [None] for [undefined].
    - A [throw] is the left injection of a sum; the state that a method has
      changed before it throws is not part of the result.  A loop whose
      exit depends on run-time values takes fuel and returns [None] when
      the fuel runs out, and is proved to return. *)

From Stdlib Require Import ZArith Lia Znumtheory QArith Qcanon Sorted.
From stdpp Require Import base numbers list gmap.

Open Scope Z_scope.

(** ** Part I: the program *)

Definition MAX_SAFE_INTEGER : Z := 2 ^ 53 - 1.

(** [ToInt32] of the language specification, applied by [&] and [>>]. *)
Definition toInt32 (x : Z) : Z := (x + 2 ^ 31) `mod` 2 ^ 32 - 2 ^ 31.

(** A string, as the sequence of its UTF-16 code units. *)
Definition token : Type := list N.

(** Monadic left fold over a list, for loops whose body can fail. *)
Fixpoint foldM {A S : Type} (f : S -> A -> option S) (s : S) (l : list A)
  : option S :=
  match l with
  | [] => Some s
  | x :: r => s' ← f s x; foldM f s' r
  end.

(** [Array.prototype.slice(start, end)]: negative indices count from the
    end, both are clamped to the array. *)
Definition slice {A : Type} (l : list A) (start end_ : Z) : list A :=
  let len := Z.of_nat (length l) in
  let from := if start <? 0 then Z.max (len + start) 0 else Z.min start len in
  let to := if end_ <? 0 then Z.max (len + end_) 0 else Z.min end_ len in
  take (Z.to_nat (to - from)) (drop (Z.to_nat from) l).

(** *** Region (row/column spans) *)

Module Region.

Record t := mk { startRow : Z; startCol : Z; endRow : Z; endCol : Z }.

(** The [Error] thrown by the constructor. *)
Inductive error := InvalidRegion (startRow startCol endRow endCol : Z).

Definition compare (left right : t) : Z :=
  let diff := startRow left - startRow right in
  if negb (diff =? 0) then diff else
  let diff := startCol left - startCol right in
  if negb (diff =? 0) then diff else
  let diff := endRow left - endRow right in
  if negb (diff =? 0) then diff else
  endCol left - endCol right.

Definition valid (startRow startCol endRow endCol : Z) : bool :=
  (startRow <? endRow) || ((startRow =? endRow) && (startCol <=? endCol)).


(** The constructor: throws on invalid coordinates, before any object
    exists. *)
Definition new (startRow startCol endRow endCol : Z) : error + t :=
  if negb (valid startRow startCol endRow endCol)
  then inl (InvalidRegion startRow startCol endRow endCol)
  else inr (mk startRow startCol endRow endCol).

Definition merge (one other : t) : error + t :=
  let startRow' :=
    if startRow one <? startRow other then startRow one
    else if startRow one >? startRow other then startRow other
    else startRow one in
  let startCol' :=
    if startRow one <? startRow other then startCol one
    else if startRow one >? startRow other then startCol other
    else Z.min (startCol one) (startCol other) in
  let endRow' :=
    if endRow one >? endRow other then endRow one
    else if endRow one <? endRow other then endRow other
    else endRow one in
  let endCol' :=
    if endRow one >? endRow other then endCol one
    else if endRow one <? endRow other then endCol other
    else Z.max (endCol one) (endCol other) in
  new startRow' startCol' endRow' endCol'.

(** [[this, other].sort(Region.compare)] on two elements: the pair is
    swapped exactly when the comparator is positive on it. *)
Definition overlapsWith (this other : t) : bool :=
  let sorted :=
    if compare this other >? 0 then (other, this) else (this, other) in
  let left := sorted.1 in
  let right := sorted.2 in
  if endRow left <? startRow right then false
  else if endRow left =? startRow right then startCol right <? endCol left
  else true.

End Region.

(** *** TokenHash *)

Module TokenHash.

Definition MOD : Z := 33554393.
Definition base : Z := 747287.

Definition hashToken (token : token) : Z :=
  fold_left (fun hash c => ((hash + Z.of_N c) * base) `rem` MOD) token 0.

End TokenHash.

(** *** RollingHash *)

Module RollingHash.

Definition MOD : Z := 33554393.
Definition base : Z := 4194301.

Record t := mk {
  k : Z;
  memory : list Z;
  maxBase : Z;
  i : Z;
  hash : Z
}.

(** The [while (e > 1)] loop of [modPow]. *)
Fixpoint modPow_loop (fuel : nat) (y b e m : Z) : option Z :=
  if e >? 1 then
    match fuel with
    | O => None
    | S fuel' =>
        let y' :=
          if negb (Z.land (toInt32 e) 1 =? 0) then (b * y) `rem` m else y in
        let b' := (b * b) `rem` m in
        modPow_loop fuel' y' b' (Z.shiftr (toInt32 e) 1) m
    end
  else Some ((b * y) `rem` m).

Definition modPow (base exp m : Z) : option Z :=
  modPow_loop 32 1 base exp m.

Definition new (k : Z) : option t :=
  p ← modPow base k MOD;
  Some (mk k (replicate (Z.to_nat k) 0) (MOD - p) 0 0).

(** Returns the updated object and the returned hash. *)
Definition nextHash (s : t) (token : Z) : t * Z :=
  let hash' :=
    (base * hash s + token + maxBase s * (memory s !!! Z.to_nat (i s)))
      `rem` MOD in
  (mk (k s) (<[Z.to_nat (i s) := token]> (memory s)) (maxBase s)
      ((i s + 1) `rem` k s) hash',
   hash').

(** The object after [nextHash] was called on each element in turn. *)
Definition feed (s : t) (tokens : list Z) : t :=
  fold_left (fun s x => (nextHash s x).1) tokens s.

(** The values the successive calls returned. *)
Fixpoint outputs (s : t) (tokens : list Z) : list Z :=
  match tokens with
  | [] => []
  | x :: r => let '(s', h) := nextHash s x in h :: outputs s' r
  end.

End RollingHash.

(** *** WinnowFilter *)

Module Fingerprint.

Record t := mk {
  data : option (list token);
  hash : Z;
  start : Z;
  stop : Z
}.

End Fingerprint.

Module WinnowFilter.

Record t := mk { k : Z; windowSize : Z; kgramData : bool }.

Definition hashTokens (tokens : list token) : list (Z * token) :=
  map (fun token => (TokenHash.hashToken token, token)) tokens.

(** The local variables of [fingerprints]. *)
Record state := mkState {
  hash : RollingHash.t;
  filePos : Z;
  bufferPos : Z;
  minPos : Z;
  buffer : list Z;
  fingerprints_ : list Fingerprint.t
}.

(** The inner [for] loop that looks for the new minimum; [i] is its
    counter and the result is the final [minPos]. *)
Fixpoint rescan (fuel : nat) (buffer : list Z) (windowSize bufferPos i minPos : Z)
  : option Z :=
  if negb (i =? bufferPos) then
    match fuel with
    | O => None
    | S fuel' =>
        let minPos' :=
          if buffer !!! Z.to_nat i <=? buffer !!! Z.to_nat minPos
          then i else minPos in
        rescan fuel' buffer windowSize bufferPos ((i + 1) `rem` windowSize) minPos'
    end
  else Some minPos.

Definition emit (f : t) (tokens : list token) (buffer : list Z)
    (minPos start : Z) : Fingerprint.t :=
  Fingerprint.mk
    (if kgramData f then Some (slice tokens start (start + k f)) else None)
    (buffer !!! Z.to_nat minPos)
    start
    (start + k f - 1).

(** One iteration of the [for ... of this.hashTokens(tokens)] loop. *)
Definition step (f : t) (tokens : list token) (st : state)
    (ht : Z * token) : option state :=
  let '(hashedToken, _) := ht in
  let filePos := filePos st + 1 in
  if filePos <? 0 then
    let '(hash, _) := RollingHash.nextHash (hash st) hashedToken in
    Some (mkState hash filePos (bufferPos st) (minPos st) (buffer st)
            (fingerprints_ st))
  else
    let bufferPos := (bufferPos st + 1) `rem` windowSize f in
    let '(hash, h) := RollingHash.nextHash (hash st) hashedToken in
    let buffer := <[Z.to_nat bufferPos := h]> (buffer st) in
    if minPos st =? bufferPos then
      minPos ← rescan (Z.to_nat (windowSize f)) buffer (windowSize f) bufferPos
                 ((bufferPos + 1) `rem` windowSize f) (minPos st);
      let offset := (minPos - bufferPos - windowSize f) `rem` windowSize f in
      let start := filePos + offset in
      Some (mkState hash filePos bufferPos minPos buffer
              (fingerprints_ st ++ [emit f tokens buffer minPos start]))
    else
      if buffer !!! Z.to_nat bufferPos <=? buffer !!! Z.to_nat (minPos st) then
        let minPos := bufferPos in
        let start :=
          filePos + ((minPos - bufferPos - windowSize f) `rem` windowSize f) in
        Some (mkState hash filePos bufferPos minPos buffer
                (fingerprints_ st ++ [emit f tokens buffer minPos start]))
      else
        Some (mkState hash filePos bufferPos (minPos st) buffer
                (fingerprints_ st)).

Definition init (f : t) (hash : RollingHash.t) : state :=
  mkState hash (- k f) 0 0
    (replicate (Z.to_nat (windowSize f)) MAX_SAFE_INTEGER) [].

Definition fingerprints (f : t) (tokens : list token)
  : option (list Fingerprint.t) :=
  hash ← RollingHash.new (k f);
  st ← foldM (step f tokens) (init f hash) (hashTokens tokens);
  Some (fingerprints_ st).

End WinnowFilter.

(** *** PascalPlagiarismDetector *)

(** Ways in which a call of the detector ends without a value. *)
Inductive failure :=
  | OutOfFuel                         (* a fuel-bounded loop did not finish *)
  | WindowSmallerThanKgram            (* thrown by the constructor *)
  | InvalidRegion (e : Region.error)  (* thrown by [new Region] *)
  | InvalidEmptyRegion.               (* [new Region] on the NaN position of
                                         an empty cluster *)

Definition result (A : Type) : Type := (failure + A)%type.

Definition rbind {A B : Type} (m : result A) (f : A -> result B) : result B :=
  match m with
  | inl e => inl e
  | inr a => f a
  end.

Notation "x <-! m ; k" := (rbind m (fun x => k))
  (at level 20, m at level 100, k at level 200, right associativity,
   format "'[' x  <-!  m ; '/' k ']'").

Definition of_fuel {A : Type} (m : option A) : result A :=
  match m with
  | Some a => inr a
  | None => inl OutOfFuel
  end.

Definition of_region {A : Type} (m : Region.error + A) : result A :=
  match m with
  | inl e => inl (InvalidRegion e)
  | inr a => inr a
  end.

(** Sequential [Array.prototype.map] with a callback that can throw. *)
Fixpoint mapR {A B : Type} (f : A -> result B) (l : list A) : result (list B) :=
  match l with
  | [] => inr []
  | x :: r => y <-! f x; ys <-! mapR f r; inr (y :: ys)
  end.

Fixpoint foldR {A S : Type} (f : S -> A -> result S) (s : S) (l : list A)
  : result S :=
  match l with
  | [] => inr s
  | x :: r => s' <-! f s x; foldR f s' r
  end.

(** [Array.prototype.sort] with the comparator [(a, b) => key(a) - key(b)]:
    a stable sort by ascending key. *)
Fixpoint insert_by {A : Type} (key : A -> Z) (x : A) (l : list A) : list A :=
  match l with
  | [] => [x]
  | y :: r => if key y <? key x then y :: insert_by key x r else x :: l
  end.

Definition sort_by {A : Type} (key : A -> Z) (l : list A) : list A :=
  foldr (insert_by key) [] l.

(** A [Map] from hashes to arrays, in insertion order. *)
Fixpoint group_push {A : Type} (hash : Z) (x : A) (m : list (Z * list A))
  : list (Z * list A) :=
  match m with
  | [] => [(hash, [x])]
  | (h, xs) :: r =>
      if h =? hash then (h, xs ++ [x]) :: r else (h, xs) :: group_push hash x r
  end.

Fixpoint group_get {A : Type} (hash : Z) (m : list (Z * list A))
  : option (list A) :=
  match m with
  | [] => None
  | (h, xs) :: r => if h =? hash then Some xs else group_get hash r
  end.

(** Quotient of two sizes.  The source computes it in double precision;
    it is kept here as the exact rational, of which the double is the
    correctly rounded value (rounding preserves the order and the values
    0 and 1). *)
Definition ratio (a b : nat) : Qc :=
  (Q2Qc (inject_Z (Z.of_nat a)) / Q2Qc (inject_Z (Z.of_nat b)))%Qc.

Module PascalPlagiarismDetector.

Record t := mk {
  kgramSize : Z;
  windowSize : Z;
  winnowFilter : WinnowFilter.t
}.

Definition new (kgramSize windowSize : Z) : result t :=
  if windowSize <? kgramSize then inl WindowSmallerThanKgram
  else inr (mk kgramSize windowSize
              (WinnowFilter.mk kgramSize windowSize true)).

(** [{...fp, position: fp.start, kgram: fp.data || []}] *)
Record EnhancedFingerprint := mkEnhanced {
  fp : Fingerprint.t;
  position : Z;
  kgram : list token
}.

Record FingerprintData := mkData {
  fingerprints : gset Z;
  fingerprintArray : list Z;
  positionedFingerprints : list EnhancedFingerprint;
  regions : list Region.t
}.

Record TokenRange := mkRange { start : Z; end_ : Z }.

(** The floating-point field [confidence] is not part of the embedding;
    no other field depends on it. *)
Record SharedRegion := mkShared {
  file1Range : TokenRange;
  file2Range : TokenRange;
  file1Lines : TokenRange;
  file2Lines : TokenRange;
  sharedTokens : list token;
  region1 : Region.t;
  region2 : Region.t
}.

Record FingerprintMatch := mkMatch {
  fp1 : EnhancedFingerprint;
  fp2 : EnhancedFingerprint;
  distance : Z
}.

(** The fields of [SimilarityResult] other than the floating-point
    [qualityScore]. *)
Record SimilarityResult := mkResult {
  similarity : Qc;
  overlapSimilarity1 : Qc;
  overlapSimilarity2 : Qc;
  sharedFingerprints : nat;
  sharedRegions : list SharedRegion
}.

(** Returns [(line, column)]. *)
Definition estimatePosition (tokenIndex : Z) : Z * Z :=
  (tokenIndex `div` 10 + 1, tokenIndex `rem` 10 + 1).

Definition createRegionsFromFingerprints
    (fingerprints : list EnhancedFingerprint) : result (list Region.t) :=
  mapR (fun fp_ =>
          let startPos := estimatePosition (Fingerprint.start (fp fp_)) in
          let endPos := estimatePosition (Fingerprint.stop (fp fp_)) in
          of_region (Region.new startPos.1 startPos.2 endPos.1 endPos.2))
       fingerprints.

Definition enhance (fp_ : Fingerprint.t) : EnhancedFingerprint :=
  mkEnhanced fp_ (Fingerprint.start fp_)
    (match Fingerprint.data fp_ with
     | Some data => data
     | None => []
     end).

Definition generateFingerprints (d : t) (tokens : list token)
  : result FingerprintData :=
  if Z.of_nat (length tokens) <? kgramSize d then
    inr (mkData ∅ [] [] [])
  else
    fingerprints <-! of_fuel (WinnowFilter.fingerprints (winnowFilter d) tokens);
    let enhancedFingerprints := map enhance fingerprints in
    regions <-! createRegionsFromFingerprints enhancedFingerprints;
    inr (mkData (list_to_set (map Fingerprint.hash fingerprints))
           (map Fingerprint.hash fingerprints)
           enhancedFingerprints regions).

Definition hashMap (fingerprints : list EnhancedFingerprint)
  : list (Z * list EnhancedFingerprint) :=
  fold_left (fun m fp_ => group_push (Fingerprint.hash (fp fp_)) fp_ m)
    fingerprints [].

Definition findMatches (fingerprints1 fingerprints2 : list EnhancedFingerprint)
  : list FingerprintMatch :=
  let hashMap1 := hashMap fingerprints1 in
  let hashMap2 := hashMap fingerprints2 in
  flat_map
    (fun '(hash, fps1) =>
       match group_get hash hashMap2 with
       | Some fps2 =>
           flat_map
             (fun fp1 =>
                map (fun fp2 =>
                       mkMatch fp1 fp2 (Z.abs (position fp1 - position fp2)))
                    fps2)
             fps1
       | None => []
       end)
    hashMap1.

Definition list_min (x : Z) (l : list Z) : Z := fold_left Z.min l x.
Definition list_max (x : Z) (l : list Z) : Z := fold_left Z.max l x.

Definition createSharedRegion (d : t)
    (cluster : list FingerprintMatch) (tokens1 tokens2 : list token)
  : result SharedRegion :=
  match cluster with
  | [] => inl InvalidEmptyRegion
  | m :: ms =>
      let start1 := fun m => Fingerprint.start (fp (fp1 m)) in
      let stop1 := fun m => Fingerprint.stop (fp (fp1 m)) in
      let start2 := fun m => Fingerprint.start (fp (fp2 m)) in
      let stop2 := fun m => Fingerprint.stop (fp (fp2 m)) in
      let file1Range :=
        mkRange (list_min (start1 m) (map start1 ms))
                (list_max (stop1 m) (map stop1 ms)) in
      let file2Range :=
        mkRange (list_min (start2 m) (map start2 ms))
                (list_max (stop2 m) (map stop2 ms)) in
      let sharedTokens := slice tokens1 (start file1Range) (end_ file1Range + 1) in
      let region1Pos := estimatePosition (start file1Range) in
      let region1End := estimatePosition (end_ file1Range) in
      let region2Pos := estimatePosition (start file2Range) in
      let region2End := estimatePosition (end_ file2Range) in
      region1 <-! of_region
        (Region.new region1Pos.1 region1Pos.2 region1End.1 region1End.2);
      region2 <-! of_region
        (Region.new region2Pos.1 region2Pos.2 region2End.1 region2End.2);
      inr (mkShared file1Range file2Range
             (mkRange region1Pos.1 region1End.1)
             (mkRange region2Pos.1 region2End.1)
             sharedTokens region1 region2)
  end.

Definition mergeTwo (current next : SharedRegion) : result SharedRegion :=
  mergedRegion1 <-! of_region (Region.merge (region1 current) (region1 next));
  mergedRegion2 <-! of_region (Region.merge (region2 current) (region2 next));
  inr (mkShared
         (mkRange (Z.min (start (file1Range current)) (start (file1Range next)))
                  (Z.max (end_ (file1Range current)) (end_ (file1Range next))))
         (mkRange (Z.min (start (file2Range current)) (start (file2Range next)))
                  (Z.max (end_ (file2Range current)) (end_ (file2Range next))))
         (mkRange (Region.startRow mergedRegion1) (Region.endRow mergedRegion1))
         (mkRange (Region.startRow mergedRegion2) (Region.endRow mergedRegion2))
         (sharedTokens current ++ sharedTokens next)
         mergedRegion1 mergedRegion2).

(** The loop of [mergeOverlappingRegions]; the state is [(merged, current)]. *)
Definition mergeStep (st : list SharedRegion * SharedRegion)
    (next : SharedRegion) : result (list SharedRegion * SharedRegion) :=
  let '(merged, current) := st in
  if Region.overlapsWith (region1 current) (region1 next) then
    current' <-! mergeTwo current next; inr (merged, current')
  else inr (merged ++ [current], next).

Definition mergeOverlappingRegions (regions : list SharedRegion)
  : result (list SharedRegion) :=
  if (length regions <=? 1)%nat then inr regions
  else
    match sort_by (fun r => start (file1Range r)) regions with
    | [] => inr []  (* not reached: [regions] has two elements or more *)
    | first :: rest =>
        st <-! foldR mergeStep ([], first) rest;
        inr (st.1 ++ [st.2])
    end.

Definition shouldMerge (d : t) (lastMatch match_ : FingerprintMatch) : bool :=
  let gap1 := position (fp1 match_) - Fingerprint.stop (fp (fp1 lastMatch)) in
  let gap2 := Z.abs (position (fp2 match_) - Fingerprint.stop (fp (fp2 lastMatch))) in
  let positionDrift :=
    Z.abs ((position (fp1 match_) - position (fp1 lastMatch))
           - (position (fp2 match_) - position (fp2 lastMatch))) in
  (gap1 <=? kgramSize d * 2) && (gap2 <=? kgramSize d * 2)
  && (positionDrift <=? kgramSize d).

(** Closing a cluster: it becomes a region when it has at least two
    matches. *)
Definition finalize (d : t) (tokens1 tokens2 : list token)
    (regions : list SharedRegion) (currentCluster : list FingerprintMatch)
  : result (list SharedRegion) :=
  if (2 <=? length currentCluster)%nat then
    r <-! createSharedRegion d currentCluster tokens1 tokens2;
    inr (regions ++ [r])
  else inr regions.

(** One iteration of the loop of [clusterMatchesIntoRegions]; the state
    is [(regions, currentCluster)]. *)
Definition clusterStep (d : t) (tokens1 tokens2 : list token)
    (st : list SharedRegion * list FingerprintMatch) (match_ : FingerprintMatch)
  : result (list SharedRegion * list FingerprintMatch) :=
  let '(regions, currentCluster) := st in
  match last currentCluster with
  | None => inr (regions, currentCluster ++ [match_])
  | Some lastMatch =>
      if shouldMerge d lastMatch match_ then
        inr (regions, currentCluster ++ [match_])
      else
        regions' <-! finalize d tokens1 tokens2 regions currentCluster;
        inr (regions', [match_])
  end.

Definition clusterMatchesIntoRegions (d : t)
    (matches : list FingerprintMatch) (tokens1 tokens2 : list token)
  : result (list SharedRegion) :=
  st <-! foldR (clusterStep d tokens1 tokens2) ([], []) matches;
  regions <-! finalize d tokens1 tokens2 st.1 st.2;
  mergeOverlappingRegions regions.

Definition findSharedRegions (d : t)
    (fingerprints1 fingerprints2 : list EnhancedFingerprint)
    (tokens1 tokens2 : list token) : result (list SharedRegion) :=
  let matches := findMatches fingerprints1 fingerprints2 in
  if (length matches =? 0)%nat then inr []
  else
    let matches := sort_by (fun m => position (fp1 m)) matches in
    clusterMatchesIntoRegions d matches tokens1 tokens2.

Definition compareTwoFiles (d : t) (tokens1 tokens2 : list token)
  : result SimilarityResult :=
  fingerprints1 <-! generateFingerprints d tokens1;
  fingerprints2 <-! generateFingerprints d tokens2;
  let intersection :=
    filter (fun f => f ∈ fingerprints fingerprints2) (fingerprints fingerprints1) in
  let union := fingerprints fingerprints1 ∪ fingerprints fingerprints2 in
  let jaccardSimilarity :=
    if (0 <? size union)%nat then ratio (size intersection) (size union)
    else 0%Qc in
  let overlapSim1 :=
    if (0 <? size (fingerprints fingerprints1))%nat
    then ratio (size intersection) (size (fingerprints fingerprints1))
    else 0%Qc in
  let overlapSim2 :=
    if (0 <? size (fingerprints fingerprints2))%nat
    then ratio (size intersection) (size (fingerprints fingerprints2))
    else 0%Qc in
  sharedRegions <-! findSharedRegions d
    (positionedFingerprints fingerprints1)
    (positionedFingerprints fingerprints2) tokens1 tokens2;
  inr (mkResult jaccardSimilarity overlapSim1 overlapSim2
         (size intersection) sharedRegions).

End PascalPlagiarismDetector.

(** *** Range (half-open intervals of token positions) *)


Module Range.

Record t := mk { from : Z; to : Z }.

(** The [Error] thrown by the constructor. *)
Inductive error := FromNotSmaller (from to : Z).

Definition compare (one other : t) : Z :=
  if from one =? from other then to one - to other
  else from one - from other.

(** The constructor.  The default value of the parameter [to] is [-1], and
    the body replaces a [to] of [-1] by [from + 1], whether it was passed
    or defaulted. *)
Definition new (from to : Z) : error + t :=
  let to := if to =? -1 then from + 1 else to in
  if from >=? to then inl (FromNotSmaller from to)
  else inr (mk from to).

Definition merge (one other : t) : error + t :=
  new (Z.min (from one) (from other)) (Z.max (to one) (to other)).

Definition length (r : t) : Z := to r - from r.

Definition contains (this other : t) : bool :=
  (from this <=? from other) && (to other <=? to this).

End Range.

(** *** TokenizedFile *)

(** The fields of a tokenized file that the index and the fingerprinter
    read.  Maps of the source that are keyed by the file object compare
    object identities; [ref] stands for that identity. *)
Module TokenizedFile.

Record t := mk {
  ref : Z;
  id : Z;
  path : token;
  tokens : list token;
  regions : list Region.t
}.

End TokenizedFile.




(** *** PascalFingerprinter *)

Module PascalFingerprinter.

Record t := mk { k : Z; windowSize : Z }.

(** [constructor(k = 5, windowSize = 4)] *)
Definition new (k windowSize : option Z) : t :=
  mk (default 5 k) (default 4 windowSize).




End PascalFingerprinter.

(** *** SharedFingerprint *)

Module ASTRegion.

Record t := mk {
  start : Z;
  stop : Z;
  index : Z;
  location : Region.t;
  data : option (list token)
}.

End ASTRegion.

Module SharedFingerprint.

Record part := mkPart { file : TokenizedFile.t; side : ASTRegion.t }.

(** [partMap] is a [Map] keyed by file objects, in insertion order. *)
Record t := mk {
  hash : Z;
  kgram : option (list token);
  ignored : bool;
  partMap : list (TokenizedFile.t * list part)
}.

Definition new (hash : Z) (kgram : option (list token)) : t :=
  mk hash kgram false [].

Fixpoint partMap_get (file : TokenizedFile.t)
    (m : list (TokenizedFile.t * list part)) : option (list part) :=
  match m with
  | [] => None
  | (f, parts) :: r =>
      if TokenizedFile.ref f =? TokenizedFile.ref file then Some parts
      else partMap_get file r
  end.

(** The array found under the key of [p] gets [p] pushed; a key that is
    missing is added at the end. *)
Fixpoint partMap_push (p : part) (m : list (TokenizedFile.t * list part))
  : list (TokenizedFile.t * list part) :=
  match m with
  | [] => [(file p, [p])]
  | (f, parts) :: r =>
      if TokenizedFile.ref f =? TokenizedFile.ref (file p)
      then (f, parts ++ [p]) :: r
      else (f, parts) :: partMap_push p r
  end.

Definition add (this : t) (p : part) : t :=
  mk (hash this) (kgram this) (ignored this) (partMap_push p (partMap this)).

Definition occurrencesOf (this : t) (file : TokenizedFile.t) : list part :=
  default [] (partMap_get file (partMap this)).

Definition files (this : t) : list TokenizedFile.t := (partMap this).*1.

Definition fileCount (this : t) : nat := length (partMap this).

End SharedFingerprint.

(** *** FingerprintIndex *)

Module FingerprintIndex.

(** An entry of [files].  The set [shared] holds [SharedFingerprint]
    objects, which exist once per hash (they are created under their hash
    in [index] and never replaced): a member is named by its hash. *)
Record entry := mkEntry {
  file : TokenizedFile.t;
  kgrams : list Range.t;
  shared : gset Z
}.

Record t := mk {
  kgramLength : Z;
  windowSize : Z;
  hashFilter : WinnowFilter.t;
  files : gmap Z entry;
  index : gmap Z SharedFingerprint.t
}.

Definition new (kgramLength windowSize : Z) : t :=
  mk kgramLength windowSize (WinnowFilter.mk kgramLength windowSize true) ∅ ∅.




End FingerprintIndex.

(** ** Part II: reference definitions used in the statements *)

(** The polynomial a window of token hashes stands for: the first element
    carries the highest power of the base, the last one the power zero. *)
Fixpoint polySum (window : list Z) : Z :=
  match window with
  | [] => 0
  | x :: r => x * RollingHash.base ^ Z.of_nat (length r) + polySum r
  end.

(** Non-incremental reference hash of a window of token hashes. *)
Definition referenceHash (window : list Z) : Z :=
  polySum window `mod` RollingHash.MOD.

(** The same reference computed by Horner's rule from scratch. *)
Definition hornerHash (window : list Z) : Z :=
  fold_left (fun h x => (RollingHash.base * h + x) `mod` RollingHash.MOD) window 0.

(** Token hash at a position; positions before the start of the file read
    the zero the memory of the rolling hash is filled with. *)
Definition tokenAt (hs : list Z) (j : Z) : Z :=
  if j <? 0 then 0 else hs !!! Z.to_nat j.

(** The [k] token hashes that end at position [i]. *)
Definition windowAt (hs : list Z) (i k : Z) : list Z :=
  tokenAt hs <$> seqZ (i - k + 1) k.

(** A circular buffer of [w] slots that is written at slot [t mod w] at
    time [t]: after time [t], slot [j] holds the value written at the
    latest time up to [t] that is congruent to [j]. *)
Definition circular (F : Z -> Z) (w t : Z) (buf : list Z) : Prop :=
  length buf = Z.to_nat w /\
  forall j, 0 <= j < w -> buf !!! Z.to_nat j = F (t - (t - j) `mod` w).

(** State of a [RollingHash] of width [k] that consumed the first [t]
    elements of [hs]. *)
Definition rolling_inv (hs : list Z) (k t : Z) (s : RollingHash.t) : Prop :=
  RollingHash.k s = k /\
  RollingHash.maxBase s
    = RollingHash.MOD - RollingHash.base ^ k `mod` RollingHash.MOD /\
  RollingHash.i s = t `mod` k /\
  circular (tokenAt hs) k (t - 1) (RollingHash.memory s) /\
  RollingHash.hash s = referenceHash (windowAt hs (t - 1) k).

(** Token hashes as [TokenHash] produces them. *)
Definition token_hashes (hs : list Z) : Prop :=
  Forall (fun h => 0 <= h < TokenHash.MOD) hs.

(** Hash of the k-gram that starts at token [n]: the value [nextHash]
    returned at the k-gram's last token, [outs] being the values returned
    over the whole file; before the start of the file the window buffer
    holds its initial filler. *)
Definition kgramHash (outs : list Z) (k n : Z) : Z :=
  if n <? 0 then MAX_SAFE_INTEGER else outs !!! Z.to_nat (n + k - 1).

(** Content of the window buffer by writing time: k-gram [n] is written at
    time [n + 1]. *)
Definition slotHash (outs : list Z) (k u : Z) : Z := kgramHash outs k (u - 1).

(** The k-gram held by slot [m] of the window buffer after [T] k-grams. *)
Definition held (w T m : Z) : Z := T - (T - m) `mod` w - 1.

(** Number of k-grams completed by the first [t] tokens. *)
Definition kgrams_seen (k t : Z) : Z := Z.max 0 (t - k + 1).

(** The values the rolling hash [s0] returns over the tokens of a file. *)
Definition rolling_outputs (s0 : RollingHash.t) (tokens : list token) : list Z :=
  RollingHash.outputs s0 (TokenHash.hashToken <$> tokens).

Definition fingerprint_ok (f : WinnowFilter.t) (tokens : list token)
    (s0 : RollingHash.t) (T : Z) (fp : Fingerprint.t) : Prop :=
  0 <= Fingerprint.start fp < T /\
  Fingerprint.stop fp = Fingerprint.start fp + WinnowFilter.k f - 1 /\
  Fingerprint.hash fp
    = kgramHash (rolling_outputs s0 tokens) (WinnowFilter.k f)
        (Fingerprint.start fp) /\
  Fingerprint.data fp
    = if WinnowFilter.kgramData f
      then Some (slice tokens (Fingerprint.start fp)
                   (Fingerprint.start fp + WinnowFilter.k f))
      else None.

(** Loop invariant of [WinnowFilter.fingerprints] after [t] tokens, the
    rolling hash having started from [s0]. *)
Record winnow_inv (f : WinnowFilter.t) (tokens : list token)
    (s0 : RollingHash.t) (t : nat) (st : WinnowFilter.state) : Prop := {
  wi_hash :
    WinnowFilter.hash st
    = RollingHash.feed s0 (take t (TokenHash.hashToken <$> tokens));
  wi_filePos : WinnowFilter.filePos st = Z.of_nat t - WinnowFilter.k f;
  wi_bufferPos :
    WinnowFilter.bufferPos st
    = kgrams_seen (WinnowFilter.k f) (Z.of_nat t) `mod` WinnowFilter.windowSize f;
  wi_buffer :
    circular (slotHash (rolling_outputs s0 tokens) (WinnowFilter.k f))
      (WinnowFilter.windowSize f) (kgrams_seen (WinnowFilter.k f) (Z.of_nat t))
      (WinnowFilter.buffer st);
  wi_minPos : 0 <= WinnowFilter.minPos st < WinnowFilter.windowSize f;
  wi_start :
    kgrams_seen (WinnowFilter.k f) (Z.of_nat t) = 0 ->
    WinnowFilter.minPos st = 0 /\ WinnowFilter.fingerprints_ st = [];
  wi_min :
    0 < kgrams_seen (WinnowFilter.k f) (Z.of_nat t) ->
    let h := held (WinnowFilter.windowSize f)
               (kgrams_seen (WinnowFilter.k f) (Z.of_nat t))
               (WinnowFilter.minPos st) in
    let G := kgramHash (rolling_outputs s0 tokens) (WinnowFilter.k f) in
    0 <= h /\
    (forall j, 0 <= j ->
       kgrams_seen (WinnowFilter.k f) (Z.of_nat t) - WinnowFilter.windowSize f <= j
         < kgrams_seen (WinnowFilter.k f) (Z.of_nat t) ->
       G h <= G j) /\
    exists fp, fp ∈ WinnowFilter.fingerprints_ st /\
      Fingerprint.hash fp = G h /\ Fingerprint.start fp = h;
  wi_fps :
    Forall (fingerprint_ok f tokens s0
              (kgrams_seen (WinnowFilter.k f) (Z.of_nat t)))
      (WinnowFilter.fingerprints_ st);
  wi_sorted :
    StronglySorted (fun a b => Fingerprint.start a < Fingerprint.start b)
      (WinnowFilter.fingerprints_ st);
  wi_last :
    Forall (fun fp =>
              Fingerprint.start fp
              <= held (WinnowFilter.windowSize f)
                   (kgrams_seen (WinnowFilter.k f) (Z.of_nat t))
                   (WinnowFilter.minPos st))
      (WinnowFilter.fingerprints_ st)
}.

(** The set of distinct hashes of a fingerprint sequence. *)
Definition hash_set (fps : list Fingerprint.t) : gset Z :=
  list_to_set (Fingerprint.hash <$> fps).


(** Regions and detector values that can exist at run time. *)

(** Row-major order on positions. *)
Definition pos_le (r1 c1 r2 c2 : Z) : Prop :=
  r1 < r2 \/ (r1 = r2 /\ c1 <= c2).

(** A region object as the constructor lets it exist. *)
Definition region_wf (r : Region.t) : Prop :=
  Region.valid (Region.startRow r) (Region.startCol r)
    (Region.endRow r) (Region.endCol r) = true.

(** [outer] starts no later and ends no earlier than [inner]. *)
Definition covers (outer inner : Region.t) : Prop :=
  pos_le (Region.startRow outer) (Region.startCol outer)
    (Region.startRow inner) (Region.startCol inner) /\
  pos_le (Region.endRow inner) (Region.endCol inner)
    (Region.endRow outer) (Region.endCol outer).

(** Fingerprints with [0 <= start <= stop], and what is built from them. *)
Definition ok_fp (n : Z) (e : PascalPlagiarismDetector.EnhancedFingerprint) : Prop :=
  0 <= Fingerprint.start (PascalPlagiarismDetector.fp e)
    <= Fingerprint.stop (PascalPlagiarismDetector.fp e) /\
  Fingerprint.stop (PascalPlagiarismDetector.fp e) < n.

Definition ok_match (n1 n2 : Z) (m : PascalPlagiarismDetector.FingerprintMatch)
  : Prop :=
  ok_fp n1 (PascalPlagiarismDetector.fp1 m) /\
  ok_fp n2 (PascalPlagiarismDetector.fp2 m).

Definition ok_range (n : Z) (r : PascalPlagiarismDetector.TokenRange) : Prop :=
  0 <= PascalPlagiarismDetector.start r <= PascalPlagiarismDetector.end_ r /\
  PascalPlagiarismDetector.end_ r < n.

(** A shared region between a file of [n1] and a file of [n2] tokens. *)
Definition ok_shared (n1 n2 : Z) (r : PascalPlagiarismDetector.SharedRegion)
  : Prop :=
  region_wf (PascalPlagiarismDetector.region1 r) /\
  region_wf (PascalPlagiarismDetector.region2 r) /\
  ok_range n1 (PascalPlagiarismDetector.file1Range r) /\
  ok_range n2 (PascalPlagiarismDetector.file2Range r).

(** Trial division: [no_divisor_from n d p] checks that none of
    [d, d+1, ..., d+n-1] divides [p]. *)
Fixpoint no_divisor_from (n : nat) (d p : Z) : bool :=
  match n with
  | O => true
  | S n' => negb (p `mod` d =? 0) && no_divisor_from n' (d + 1) p
  end.

(** Grouping of a list by key, as the hash maps of [findSharedRegions]. *)
Definition pushAll {A : Type} (key : A -> Z) (l : list A)
    (m : list (Z * list A)) : list (Z * list A) :=
  fold_left (fun m x => group_push (key x) x m) l m.









(** ** Part III: proofs *)

(** *** Arithmetic *)

Lemma rem_mod_nonneg a m : 0 <= a -> 0 < m -> a `rem` m = a `mod` m.
Proof. intros. apply Z.rem_mod_nonneg; lia. Qed.

Lemma mod_eq_intro a r q m : 0 <= r < m -> a = q * m + r -> a `mod` m = r.
Proof. intros Hr ->. rewrite Z.add_comm, Z_mod_plus_full. by apply Z.mod_small. Qed.

Lemma mod_sub_zero w t j :
  0 < w -> 0 <= j < w -> (t - j) `mod` w = 0 <-> j = t `mod` w.
Proof.
  intros Hw Hj. split.
  - intros H. symmetry. apply (mod_eq_intro _ _ ((t - j) `div` w)); [done|].
    pose proof (Z.div_mod (t - j) w ltac:(lia)). lia.
  - intros ->. apply (mod_eq_intro _ _ (t `div` w)); [lia|].
    pose proof (Z.div_mod t w ltac:(lia)). lia.
Qed.

Lemma mod_sub_succ w t j :
  0 < w -> (t - j) `mod` w <> 0 ->
  (t - j) `mod` w = (t - 1 - j) `mod` w + 1.
Proof.
  intros Hw Hne.
  pose proof (Z.mod_pos_bound (t - j) w Hw) as Hb.
  pose proof (Z.div_mod (t - j) w ltac:(lia)) as Hdm.
  assert ((t - 1 - j) `mod` w = (t - j) `mod` w - 1) as ->; [|lia].
  apply (mod_eq_intro _ _ ((t - j) `div` w)); lia.
Qed.

Lemma mod_sub_oldest w t :
  0 < w -> (t - 1 - t `mod` w) `mod` w = w - 1.
Proof.
  intros Hw. pose proof (Z.div_mod t w ltac:(lia)).
  apply (mod_eq_intro _ _ (t `div` w - 1)); lia.
Qed.

Lemma mod_succ_rem w t :
  0 < w -> 0 <= t -> (t `mod` w + 1) `rem` w = (t + 1) `mod` w.
Proof.
  intros Hw Ht. pose proof (Z.mod_pos_bound t w Hw).
  rewrite rem_mod_nonneg by lia. by rewrite Z.add_mod_idemp_l by lia.
Qed.

Lemma toInt32_small e : 0 <= e < 2 ^ 31 -> toInt32 e = e.
Proof. intros H. unfold toInt32. rewrite Z.mod_small; lia. Qed.

Lemma toInt32_range e : - 2 ^ 31 <= toInt32 e < 2 ^ 31.
Proof.
  unfold toInt32.
  pose proof (Z.mod_pos_bound (e + 2 ^ 31) (2 ^ 32)). lia.
Qed.

(** *** Circular buffers *)

Lemma circular_write F w t buf x :
  0 < w -> circular F w (t - 1) buf -> x = F t ->
  circular F w t (<[Z.to_nat (t `mod` w) := x]> buf).
Proof.
  intros Hw [Hlen Hbuf] ->. split; [by rewrite length_insert|].
  intros j Hj.
  pose proof (Z.mod_pos_bound t w Hw) as Hb.
  destruct (decide (j = t `mod` w)) as [->|Hne].
  - rewrite list_lookup_total_insert_eq by lia.
    f_equal. assert ((t - t `mod` w) `mod` w = 0) as ->; [|lia].
    by apply mod_sub_zero.
  - rewrite list_lookup_total_insert_ne by lia.
    rewrite Hbuf by done. f_equal.
    assert ((t - j) `mod` w <> 0) as Hnz by (by rewrite mod_sub_zero).
    rewrite (mod_sub_succ w t j) by done. lia.
Qed.

Lemma circular_oldest F w t buf :
  0 < w -> circular F w (t - 1) buf ->
  buf !!! Z.to_nat (t `mod` w) = F (t - w).
Proof.
  intros Hw [_ Hbuf].
  pose proof (Z.mod_pos_bound t w Hw) as Hb.
  rewrite Hbuf by done. f_equal. rewrite mod_sub_oldest by done. lia.
Qed.

Lemma circular_init F w t c :
  0 < w -> (forall u, u <= t -> F u = c) ->
  circular F w t (replicate (Z.to_nat w) c).
Proof.
  intros Hw HF. split; [by rewrite length_replicate|].
  intros j Hj. rewrite lookup_total_replicate_2 by lia.
  symmetry. apply HF. pose proof (Z.mod_pos_bound (t - j) w Hw). lia.
Qed.

(** *** modPow *)

Lemma modPow_loop_S fuel y b e m :
  RollingHash.modPow_loop (S fuel) y b e m =
  if e >? 1 then
    RollingHash.modPow_loop fuel
      (if negb (Z.land (toInt32 e) 1 =? 0) then (b * y) `rem` m else y)
      ((b * b) `rem` m) (Z.shiftr (toInt32 e) 1) m
  else Some ((b * y) `rem` m).
Proof. reflexivity. Qed.

Lemma modPow_loop_correct fuel : forall y b e m,
  0 < m -> 0 <= y -> 0 <= b -> e < 2 ^ 31 ->
  1 <= e < 2 ^ Z.of_nat fuel ->
  RollingHash.modPow_loop fuel y b e m = Some ((y * b ^ e) `mod` m).
Proof.
  induction fuel as [|fuel IH]; intros y b e m Hm Hy Hb H31 He.
  { simpl in He. lia. }
  rewrite Nat2Z.inj_succ, Z.pow_succ_r in He by lia.
  rewrite modPow_loop_S. destruct (Z.gtb_spec e 1) as [Hgt|Hle].
  - rewrite toInt32_small by lia.
    rewrite Z.shiftr_div_pow2 by lia. change (2 ^ 1) with 2.
    change 1 with (Z.ones 1) at 1. rewrite Z.land_ones by lia. change (2 ^ 1) with 2.
    pose proof (Z.div_mod e 2 ltac:(lia)) as Hdm.
    pose proof (Z.mod_pos_bound e 2 ltac:(lia)) as Hr.
    rewrite !rem_mod_nonneg by nia.
    rewrite IH; [|done| |by apply Z.mod_pos_bound|lia|lia].
    2:{ case_match; [apply Z.mod_pos_bound|]; lia. }
    f_equal.
    rewrite Z.mul_mod, Z.mod_pow_l, <- Z.mul_mod by lia.
    rewrite <- Z.mul_mod_idemp_l by lia.
    assert ((if negb (e `mod` 2 =? 0) then (b * y) `mod` m else y) `mod` m
            = (y * b ^ (e `mod` 2)) `mod` m) as ->.
    { destruct (Z.eqb_spec (e `mod` 2) 0) as [->|Hne]; simpl.
      - by rewrite Z.mul_1_r.
      - replace (e `mod` 2) with 1 by lia.
        rewrite Z.mod_mod, Z.pow_1_r by lia. f_equal. lia. }
    rewrite Z.mul_mod_idemp_l by lia. f_equal.
    rewrite Hdm at 3. rewrite Z.pow_add_r, Z.pow_mul_r by lia.
    rewrite Z.pow_2_r. lia.
  - replace e with 1 by lia. rewrite rem_mod_nonneg by nia.
    f_equal. f_equal. lia.
Qed.

Lemma modPow_loop_total fuel : forall y b e m,
  (fuel <= 31)%nat -> e < 2 ^ Z.of_nat fuel ->
  is_Some (RollingHash.modPow_loop fuel y b e m).
Proof.
  induction fuel as [|fuel IH]; intros y b e m Hf He.
  { simpl in *. destruct (Z.gtb_spec e 1); [lia|done]. }
  assert (2 ^ Z.of_nat (S fuel) <= 2 ^ 31) as Hpow
    by (apply Z.pow_le_mono_r; lia).
  rewrite Nat2Z.inj_succ, Z.pow_succ_r in He, Hpow by lia.
  rewrite modPow_loop_S. destruct (Z.gtb_spec e 1) as [Hgt|Hle]; [|done].
  apply IH; [lia|].
  rewrite toInt32_small by lia.
  rewrite Z.shiftr_div_pow2 by lia. change (2 ^ 1) with 2.
  apply Z.div_lt_upper_bound; lia.
Qed.

Lemma modPow_total b e m : is_Some (RollingHash.modPow b e m).
Proof.
  unfold RollingHash.modPow.
  change 32%nat with (S 31). rewrite modPow_loop_S.
  destruct (Z.gtb_spec e 1) as [Hgt|Hle]; [|done].
  apply modPow_loop_total; [lia|].
  pose proof (toInt32_range e).
  rewrite Z.shiftr_div_pow2 by lia. change (2 ^ 1) with 2.
  apply Z.div_lt_upper_bound; [lia|].
  change (Z.of_nat 31) with 31. lia.
Qed.

Lemma modPow_correct b e m :
  0 < m -> 0 <= b -> 1 <= e < 2 ^ 31 ->
  RollingHash.modPow b e m = Some ((b ^ e) `mod` m).
Proof.
  intros Hm Hb He. unfold RollingHash.modPow.
  rewrite modPow_loop_correct; [|done|lia|done|lia|].
  - by rewrite Z.mul_1_l.
  - change (Z.of_nat 32) with 32. lia.
Qed.

(** *** TokenHash *)

Lemma no_divisor_from_sound n : forall d p x,
  0 < d -> no_divisor_from n d p = true ->
  d <= x < d + Z.of_nat n -> ~ (x | p).
Proof.
  induction n as [|n IH]; intros d p x Hd Hc Hx; [lia|].
  simpl in Hc. apply andb_true_iff in Hc as [Hc1 Hc2].
  destruct (decide (x = d)) as [->|Hne].
  - intros Hdiv. apply Z.mod_divide in Hdiv; [|lia].
    rewrite Hdiv in Hc1. discriminate.
  - apply (IH (d + 1) p x); [lia|done|lia].
Qed.

Lemma trial_division_prime p r :
  1 < p -> 0 <= r -> p < (r + 1) * (r + 1) ->
  no_divisor_from (Z.to_nat (r - 1)) 2 p = true -> prime p.
Proof.
  intros Hp Hr Hsq Hc. apply prime_alt. split; [done|].
  intros x Hx [q Hq].
  assert (1 < q < p) as Hqr by nia.
  assert (forall y, 2 <= y <= r -> ~ (y | p)) as Hnd.
  { intros y Hy. eapply no_divisor_from_sound; [|exact Hc|]; lia. }
  destruct (Z_le_gt_dec x r) as [Hle|Hgt].
  - apply (Hnd x); [lia|]. exists q. lia.
  - apply (Hnd q); [nia|]. exists x. lia.
Qed.

Lemma MOD_prime : prime TokenHash.MOD.
Proof.
  apply (trial_division_prime _ 5793); [done|done|done|].
  vm_compute. reflexivity.
Qed.

Lemma hashToken_loop_range token : forall h,
  0 <= h < TokenHash.MOD ->
  0 <= fold_left (fun hash c => ((hash + Z.of_N c) * TokenHash.base) `rem` TokenHash.MOD)
         token h
    < TokenHash.MOD.
Proof.
  induction token as [|c token IH]; intros h Hh; [done|].
  simpl. apply IH.
  rewrite rem_mod_nonneg; [|unfold TokenHash.base; lia|done].
  by apply Z.mod_pos_bound.
Qed.

Lemma hashToken_range token :
  0 <= TokenHash.hashToken token < TokenHash.MOD.
Proof. by apply hashToken_loop_range. Qed.

Lemma hashTokens_token_hashes (tokens : list token) :
  token_hashes (TokenHash.hashToken <$> tokens).
Proof. apply Forall_fmap, Forall_forall. intros x _. apply hashToken_range. Qed.

(** *** RollingHash *)

Lemma polySum_snoc r y :
  polySum (r ++ [y]) = RollingHash.base * polySum r + y.
Proof.
  induction r as [|x r IH]; simpl; [lia|].
  rewrite IH, length_app. simpl.
  rewrite Nat2Z.inj_add, Z.pow_add_r by lia.
  change (Z.of_nat 1) with 1. rewrite Z.pow_1_r. lia.
Qed.

Lemma polySum_nonneg window :
  Forall (fun x => 0 <= x) window -> 0 <= polySum window.
Proof.
  induction 1 as [|x r Hx _ IH]; simpl; [done|].
  assert (0 <= RollingHash.base ^ Z.of_nat (length r))
    by (apply Z.pow_nonneg; done).
  nia.
Qed.

Lemma hornerHash_referenceHash window :
  hornerHash window = referenceHash window.
Proof.
  unfold hornerHash, referenceHash.
  induction window as [|y r IH] using rev_ind; [done|].
  rewrite fold_left_app, polySum_snoc. simpl. rewrite IH.
  rewrite Z.add_mod, Z.mul_mod_idemp_r, <- Z.add_mod; done.
Qed.

Lemma tokenAt_nonneg hs j : token_hashes hs -> 0 <= tokenAt hs j < TokenHash.MOD.
Proof.
  intros Hhs. unfold tokenAt. case_match; [done|].
  destruct (hs !! Z.to_nat j) as [x|] eqn:E.
  - rewrite (list_lookup_total_correct _ _ _ E).
    by apply (Forall_lookup_1 _ _ _ _ Hhs E).
  - rewrite list_lookup_total_alt, E. done.
Qed.

Lemma tokenAt_lookup hs (t : nat) x :
  hs !! t = Some x -> tokenAt hs (Z.of_nat t) = x.
Proof.
  intros E. unfold tokenAt.
  destruct (Z.ltb_spec (Z.of_nat t) 0); [lia|].
  rewrite Nat2Z.id. by apply list_lookup_total_correct.
Qed.

Lemma windowAt_nonneg hs i k :
  token_hashes hs -> Forall (fun x => 0 <= x) (windowAt hs i k).
Proof.
  intros Hhs. unfold windowAt. apply Forall_fmap, Forall_forall.
  intros j _. simpl. by apply tokenAt_nonneg.
Qed.

Lemma windowAt_shift hs i k :
  0 < k ->
  exists r,
    windowAt hs (i - 1) k = tokenAt hs (i - k) :: r /\
    windowAt hs i k = r ++ [tokenAt hs i] /\
    Z.of_nat (length r) = k - 1.
Proof.
  intros Hk. exists (tokenAt hs <$> seqZ (i - k + 1) (k - 1)).
  unfold windowAt. split; [|split].
  - rewrite seqZ_cons by lia. simpl. do 2 f_equal; [f_equal; lia|f_equal; lia].
  - replace k with (k - 1 + 1) at 2 by lia.
    rewrite (seqZ_app (i - k + 1) (k - 1) 1) by lia.
    rewrite fmap_app. f_equal.
    rewrite seqZ_cons, seqZ_nil by lia. simpl. do 2 f_equal. lia.
  - rewrite length_fmap, length_seqZ. lia.
Qed.

Lemma windowAt_take_drop hs i k :
  0 < k -> k - 1 <= i < Z.of_nat (length hs) ->
  windowAt hs i k = take (Z.to_nat k) (drop (Z.to_nat (i - k + 1)) hs).
Proof.
  intros Hk Hi. unfold windowAt.
  apply list_eq. intros n.
  rewrite list_lookup_fmap.
  destruct (decide (Z.of_nat n < k)) as [Hn|Hn].
  - rewrite lookup_seqZ_lt by done. simpl.
    rewrite lookup_take_lt, lookup_drop by lia.
    unfold tokenAt. destruct (Z.ltb_spec (i - k + 1 + Z.of_nat n) 0); [lia|].
    replace (Z.to_nat (i - k + 1 + Z.of_nat n))
      with (Z.to_nat (i - k + 1) + n)%nat by lia.
    symmetry. apply list_lookup_lookup_total_lt. lia.
  - rewrite lookup_seqZ_ge by lia. simpl.
    symmetry. apply lookup_ge_None. rewrite length_take. lia.
Qed.

Lemma rolling_inv_init hs k p :
  0 < k -> p = RollingHash.base ^ k `mod` RollingHash.MOD ->
  rolling_inv hs k 0
    (RollingHash.mk k (replicate (Z.to_nat k) 0) (RollingHash.MOD - p) 0 0).
Proof.
  intros Hk ->. unfold rolling_inv. simpl. split_and!.
  - done.
  - done.
  - by rewrite Z.mod_0_l by lia.
  - apply circular_init; [done|]. intros u Hu. unfold tokenAt.
    destruct (Z.ltb_spec u 0); [done|lia].
  - unfold referenceHash, windowAt.
    assert (forall n a, a + Z.of_nat n <= 0 ->
              polySum (tokenAt hs <$> seqZ a (Z.of_nat n)) = 0) as Hz.
    { induction n as [|n IH]; intros a Ha; [done|].
      rewrite seqZ_cons by lia. simpl.
      replace (Z.pred (Z.of_nat (S n))) with (Z.of_nat n) by lia.
      rewrite IH by lia. unfold tokenAt.
      destruct (Z.ltb_spec a 0); lia. }
    replace k with (Z.of_nat (Z.to_nat k)) at 2 by lia.
    rewrite Hz by lia. done.
Qed.

Lemma rolling_inv_step hs k t s x :
  0 < k -> 0 <= t -> token_hashes hs ->
  rolling_inv hs k t s -> tokenAt hs t = x ->
  rolling_inv hs k (t + 1) (RollingHash.nextHash s x).1 /\
  (RollingHash.nextHash s x).2 = referenceHash (windowAt hs t k).
Proof.
  intros Hk Ht Hhs (Hks & Hmax & Hi & Hmem & Hhash) Hx.
  pose proof (tokenAt_nonneg hs t Hhs) as Hxb. rewrite Hx in Hxb.
  pose proof (tokenAt_nonneg hs (t - k) Hhs) as Hob.
  assert ((RollingHash.nextHash s x).2 = referenceHash (windowAt hs t k)) as Hout.
  { unfold RollingHash.nextHash. simpl.
    rewrite Hi, Hmax, Hhash.
    rewrite (circular_oldest _ _ _ _ Hk Hmem).
    destruct (windowAt_shift hs t k Hk) as (r & -> & -> & Hlen).
    unfold referenceHash. rewrite polySum_snoc, Hx. simpl. rewrite Hlen.
    set (S := tokenAt hs (t - k) * RollingHash.base ^ (k - 1) + polySum r).
    set (o := tokenAt hs (t - k)) in *.
    pose proof (Z.mod_pos_bound S RollingHash.MOD ltac:(done)) as HS.
    pose proof (Z.mod_pos_bound (RollingHash.base ^ k) RollingHash.MOD ltac:(done)) as HB.
    rewrite rem_mod_nonneg; [| |done].
    2:{ repeat apply Z.add_nonneg_nonneg; [apply Z.mul_nonneg_nonneg| |apply Z.mul_nonneg_nonneg];
        try done; lia. }
    pose proof (Z.div_mod S RollingHash.MOD ltac:(done)) as HdS.
    pose proof (Z.div_mod (RollingHash.base ^ k) RollingHash.MOD ltac:(done)) as HdB.
    assert (RollingHash.base ^ k = RollingHash.base * RollingHash.base ^ (k - 1)) as Hpow.
    { rewrite <- Z.pow_succ_r by lia. f_equal. lia. }
    set (M := RollingHash.MOD) in *. set (B := RollingHash.base) in *.
    set (Bk := B ^ k) in *. set (Bk1 := B ^ (k - 1)) in *.
    replace (B * S `mod` M + x + (M - Bk `mod` M) * o)
      with (B * polySum r + x + (o + Bk `div` M * o - B * (S `div` M)) * M)
      by (subst S; nia).
    by rewrite Z_mod_plus_full. }
  split; [|done].
  unfold rolling_inv. simpl. split_and!.
  - done.
  - done.
  - rewrite Hks, Hi. by apply mod_succ_rem.
  - replace (t + 1 - 1) with t by lia.
    rewrite Hi. eapply circular_write; [done|exact Hmem|done].
  - replace (t + 1 - 1) with t by lia. exact Hout.
Qed.

Lemma feed_snoc s l x :
  RollingHash.feed s (l ++ [x]) = (RollingHash.nextHash (RollingHash.feed s l) x).1.
Proof. unfold RollingHash.feed. by rewrite fold_left_app. Qed.

Lemma outputs_lookup tokens : forall s (n : nat) x,
  tokens !! n = Some x ->
  RollingHash.outputs s tokens !! n
  = Some (RollingHash.nextHash (RollingHash.feed s (take n tokens)) x).2.
Proof.
  induction tokens as [|y r IH]; intros s n x Hn; [done|].
  simpl. destruct n as [|n]; simpl in *.
  - by simplify_eq.
  - by apply IH.
Qed.

Lemma outputs_length tokens : forall s,
  length (RollingHash.outputs s tokens) = length tokens.
Proof. induction tokens as [|y r IH]; intros s; simpl; [done|]. by rewrite IH. Qed.

Lemma new_total k : is_Some (RollingHash.new k).
Proof.
  unfold RollingHash.new.
  destruct (modPow_total RollingHash.base k RollingHash.MOD) as [p ->]. by eexists.
Qed.

Lemma new_inv hs k :
  1 <= k < 2 ^ 31 ->
  exists s, RollingHash.new k = Some s /\ rolling_inv hs k 0 s.
Proof.
  intros Hk. unfold RollingHash.new.
  rewrite modPow_correct by (done || lia). simpl.
  eexists. split; [done|]. apply rolling_inv_init; [lia|done].
Qed.

Lemma feed_inv hs k s :
  0 < k -> token_hashes hs -> rolling_inv hs k 0 s ->
  forall t : nat, (t <= length hs)%nat ->
    rolling_inv hs k (Z.of_nat t) (RollingHash.feed s (take t hs)).
Proof.
  intros Hk Hhs H0. induction t as [|t IH]; intros Ht.
  - by rewrite take_0.
  - destruct (lookup_lt_is_Some_2 hs t ltac:(lia)) as [x Hx].
    rewrite (take_S_r _ _ _ Hx), feed_snoc.
    replace (Z.of_nat (S t)) with (Z.of_nat t + 1) by lia.
    apply rolling_inv_step; [done|lia|done|apply IH; lia|].
    by apply tokenAt_lookup.
Qed.

(** *** WinnowFilter: the inner loop and the offset *)

Lemma foldM_app {A S : Type} (f : S -> A -> option S) l1 l2 : forall s,
  foldM f s (l1 ++ l2) = s' ← foldM f s l1; foldM f s' l2.
Proof.
  induction l1 as [|x l1 IH]; intros s; simpl; [done|].
  destruct (f s x) as [s'|]; simpl; [apply IH|done].
Qed.

Lemma foldM_cons {A S : Type} (f : S -> A -> option S) x r s :
  foldM f s (x :: r) = s' ← f s x; foldM f s' r.
Proof. reflexivity. Qed.

Lemma foldM_singleton {A S : Type} (f : S -> A -> option S) x s :
  foldM f s [x] = f s x.
Proof. simpl. by destruct (f s x). Qed.

Lemma rescan_S fuel buffer w bp i m :
  WinnowFilter.rescan (S fuel) buffer w bp i m =
  if negb (i =? bp) then
    WinnowFilter.rescan fuel buffer w bp ((i + 1) `rem` w)
      (if buffer !!! Z.to_nat i <=? buffer !!! Z.to_nat m then i else m)
  else Some m.
Proof. reflexivity. Qed.

Lemma slot_after w bp c :
  0 < w -> 0 <= bp < w -> 0 <= c <= w - 1 ->
  (bp + 1 + c) `mod` w = bp <-> c = w - 1.
Proof.
  intros Hw Hbp Hc. split.
  - intros H.
    pose proof (Z.div_mod (bp + 1 + c) w ltac:(lia)) as Hdm. rewrite H in Hdm.
    assert ((bp + 1 + c) `div` w = 1) by nia. lia.
  - intros ->. apply (mod_eq_intro _ _ 1); lia.
Qed.

Lemma rescan_spec buffer w bp :
  0 < w -> 0 <= bp < w ->
  forall fuel c m,
    0 <= c <= w - 1 -> (Z.to_nat (w - 1 - c) <= fuel)%nat -> 0 <= m < w ->
    exists m',
      WinnowFilter.rescan fuel buffer w bp ((bp + 1 + c) `mod` w) m = Some m' /\
      0 <= m' < w /\
      buffer !!! Z.to_nat m' <= buffer !!! Z.to_nat m /\
      forall c', c <= c' < w - 1 ->
        buffer !!! Z.to_nat m' <= buffer !!! Z.to_nat ((bp + 1 + c') `mod` w).
Proof.
  intros Hw Hbp. induction fuel as [|fuel IH]; intros c m Hc Hfuel Hm.
  - assert (c = w - 1) as -> by lia.
    simpl. rewrite (proj2 (slot_after w bp (w - 1) Hw Hbp Hc)) by done.
    rewrite Z.eqb_refl. simpl. exists m. split_and!; (done || lia).
  - rewrite rescan_S.
    destruct (Z.eqb_spec ((bp + 1 + c) `mod` w) bp) as [Heq|Hne]; simpl.
    + exists m. apply slot_after in Heq; [|done..].
      split_and!; (done || lia).
    + assert (c < w - 1) as Hlt.
      { destruct (decide (c = w - 1)) as [->|]; [|lia].
        exfalso. apply Hne. by apply slot_after. }
      pose proof (Z.mod_pos_bound (bp + 1 + c) w Hw) as Hi.
      set (i := (bp + 1 + c) `mod` w) in *.
      set (m1 := if buffer !!! Z.to_nat i <=? buffer !!! Z.to_nat m then i else m).
      assert (0 <= m1 < w) as Hm1 by (subst m1; case_match; lia).
      assert (buffer !!! Z.to_nat m1 <= buffer !!! Z.to_nat m /\
              buffer !!! Z.to_nat m1 <= buffer !!! Z.to_nat i) as [Hm1m Hm1i].
      { subst m1. destruct (Z.leb_spec (buffer !!! Z.to_nat i) (buffer !!! Z.to_nat m)); lia. }
      assert ((i + 1) `rem` w = (bp + 1 + (c + 1)) `mod` w) as ->.
      { subst i. rewrite mod_succ_rem by lia. f_equal. lia. }
      destruct (IH (c + 1) m1) as (m' & Hres & Hm' & Hle & Hall); [lia|lia|done|].
      exists m'. split; [exact Hres|]. split; [done|]. split; [lia|].
      intros c' Hc'. destruct (decide (c' = c)) as [->|]; [fold i; lia|].
      apply Hall. lia.
Qed.

Lemma rescan_min buffer w bp :
  0 < w -> 0 <= bp < w ->
  exists m,
    WinnowFilter.rescan (Z.to_nat w) buffer w bp ((bp + 1) `rem` w) bp = Some m /\
    0 <= m < w /\
    forall j, 0 <= j < w -> buffer !!! Z.to_nat m <= buffer !!! Z.to_nat j.
Proof.
  intros Hw Hbp.
  destruct (rescan_spec buffer w bp Hw Hbp (Z.to_nat w) 0 bp) as (m & Hres & Hm & Hle & Hall);
    [lia|lia|done|].
  exists m. rewrite rem_mod_nonneg by lia.
  rewrite Z.add_0_r in Hres. split; [done|]. split; [done|].
  intros j Hj. destruct (decide (j = bp)) as [->|Hne]; [done|].
  pose proof (Z.mod_pos_bound (j - bp - 1) w Hw) as Hc.
  assert ((j - bp - 1) `mod` w <> w - 1) as Hc'.
  { intros Heq. pose proof (Z.div_mod (j - bp - 1) w ltac:(lia)) as Hdm.
    rewrite Heq in Hdm.
    assert ((j - bp - 1) `div` w = -1) by nia. lia. }
  specialize (Hall ((j - bp - 1) `mod` w) ltac:(lia)).
  assert ((bp + 1 + (j - bp - 1) `mod` w) `mod` w = j) as Hj'.
  { rewrite Z.add_mod_idemp_r by lia. replace (bp + 1 + (j - bp - 1)) with j by lia.
    by apply Z.mod_small. }
  by rewrite Hj' in Hall.
Qed.

Lemma offset_rem w bp m :
  0 < w -> 0 <= bp < w -> 0 <= m < w ->
  (m - bp - w) `rem` w = - ((bp - m) `mod` w).
Proof.
  intros Hw Hbp Hm.
  replace (m - bp - w) with (- (bp + w - m)) by lia.
  rewrite Z.rem_opp_l', rem_mod_nonneg by lia.
  f_equal. replace (bp + w - m) with (bp - m + 1 * w) by lia.
  by rewrite Z_mod_plus_full.
Qed.

(** *** WinnowFilter: the loop invariant *)

Lemma nextHash_bound s x :
  - RollingHash.MOD < (RollingHash.nextHash s x).2 < RollingHash.MOD.
Proof.
  unfold RollingHash.nextHash. simpl.
  match goal with |- _ < ?a `rem` _ < _ =>
    pose proof (Z.rem_bound_abs a RollingHash.MOD ltac:(done)) as H end.
  change (Z.abs RollingHash.MOD) with RollingHash.MOD in H. lia.
Qed.

Lemma outputs_bound tokens : forall s,
  Forall (fun v => - RollingHash.MOD < v < RollingHash.MOD)
    (RollingHash.outputs s tokens).
Proof.
  induction tokens as [|x r IH]; intros s; simpl; [done|].
  constructor; [apply (nextHash_bound s x)|apply IH].
Qed.

Lemma kgramHash_lt s tokens k n :
  0 <= n -> kgramHash (RollingHash.outputs s tokens) k n < MAX_SAFE_INTEGER.
Proof.
  intros Hn. unfold kgramHash. destruct (Z.ltb_spec n 0); [lia|].
  assert (RollingHash.MOD < MAX_SAFE_INTEGER) by done.
  destruct (RollingHash.outputs s tokens !! Z.to_nat (n + k - 1)) as [v|] eqn:E.
  - rewrite (list_lookup_total_correct _ _ _ E).
    pose proof (Forall_lookup_1 _ _ _ _ (outputs_bound tokens s) E) as Hv.
    simpl in Hv. lia.
  - rewrite list_lookup_total_alt, E. done.
Qed.

Lemma kgramHash_filler outs k n : n < 0 -> kgramHash outs k n = MAX_SAFE_INTEGER.
Proof. intros Hn. unfold kgramHash. destruct (Z.ltb_spec n 0); [done|lia]. Qed.

Lemma buffer_held outs k w T buf m :
  circular (slotHash outs k) w T buf -> 0 <= m < w ->
  buf !!! Z.to_nat m = kgramHash outs k (held w T m).
Proof.
  intros [_ Hbuf] Hm. rewrite Hbuf by done. unfold slotHash, held. f_equal.
Qed.

Lemma held_newest w T : 0 < w -> held w T (T `mod` w) = T - 1.
Proof.
  intros Hw. unfold held.
  assert ((T - T `mod` w) `mod` w = 0) as ->; [|lia].
  apply mod_sub_zero; [done| |done]. by apply Z.mod_pos_bound.
Qed.

Lemma held_slot w T j :
  0 < w -> T - w <= j < T -> held w T ((j + 1) `mod` w) = j.
Proof.
  intros Hw Hj. unfold held.
  rewrite Zminus_mod_idemp_r.
  rewrite (Z.mod_small (T - (j + 1)) w) by lia. lia.
Qed.

Lemma held_older w T m :
  0 < w -> 0 <= m < w -> m <> (T + 1) `mod` w ->
  held w (T + 1) m = held w T m.
Proof.
  intros Hw Hm Hne. unfold held.
  assert ((T + 1 - m) `mod` w <> 0) as Hnz by (by rewrite mod_sub_zero).
  rewrite (mod_sub_succ w (T + 1) m) by done.
  replace (T + 1 - 1 - m) with (T - m) by lia. lia.
Qed.

Lemma held_bounds w T m : 0 < w -> T - w <= held w T m < T.
Proof.
  intros Hw. unfold held. pose proof (Z.mod_pos_bound (T - m) w Hw). lia.
Qed.

Lemma fingerprint_ok_mono f tokens s0 T T' fp :
  T <= T' -> fingerprint_ok f tokens s0 T fp -> fingerprint_ok f tokens s0 T' fp.
Proof. intros HT (H1 & H2 & H3 & H4). split_and!; (done || lia). Qed.

Lemma held_evicted w T : 0 < w -> held w (T - 1) (T `mod` w) = T - w - 1.
Proof.
  intros Hw. unfold held. rewrite mod_sub_oldest by done. lia.
Qed.

Lemma StronglySorted_snoc {A : Type} (R : A -> A -> Prop) l x :
  StronglySorted R l -> Forall (fun y => R y x) l -> StronglySorted R (l ++ [x]).
Proof.
  induction 1 as [|y r Hr IH Hy]; intros Hall; simpl.
  - by repeat constructor.
  - inversion Hall; subst. constructor; [by apply IH|].
    apply Forall_app. split; [done|by apply Forall_singleton].
Qed.

Lemma fingerprints_snoc fps fp h :
  StronglySorted (fun a b => Fingerprint.start a < Fingerprint.start b) fps ->
  Forall (fun x => Fingerprint.start x < h) fps ->
  Fingerprint.start fp = h ->
  StronglySorted (fun a b => Fingerprint.start a < Fingerprint.start b)
    (fps ++ [fp]) /\
  Forall (fun x => Fingerprint.start x <= h) (fps ++ [fp]).
Proof.
  intros Hs Hall Hfp. split.
  - apply StronglySorted_snoc; [done|].
    eapply Forall_impl; [exact Hall|]. simpl. intros. lia.
  - apply Forall_app. split.
    + eapply Forall_impl; [exact Hall|]. simpl. intros. lia.
    + apply Forall_singleton. lia.
Qed.

Lemma winnow_step f tokens s0 (t : nat) st x :
  0 < WinnowFilter.k f -> 0 < WinnowFilter.windowSize f ->
  tokens !! t = Some x ->
  winnow_inv f tokens s0 t st ->
  exists st',
    WinnowFilter.step f tokens st (TokenHash.hashToken x, x) = Some st' /\
    winnow_inv f tokens s0 (S t) st' /\
    exists new,
      WinnowFilter.fingerprints_ st' = WinnowFilter.fingerprints_ st ++ new.
Proof.
  intros Hk Hw Hx [Hhash HfilePos HbufferPos Hbuffer HminPos Hstart Hmin Hfps Hsorted Hlast].
  set (k := WinnowFilter.k f) in *. set (w := WinnowFilter.windowSize f) in *.
  set (hs := TokenHash.hashToken <$> tokens) in *.
  set (outs := rolling_outputs s0 tokens) in *.
  set (G := kgramHash outs k) in *.
  assert (hs !! t = Some (TokenHash.hashToken x)) as Hhx.
  { subst hs. by rewrite list_lookup_fmap, Hx. }
  pose proof (outputs_lookup hs s0 t _ Hhx) as Hout.
  fold (rolling_outputs s0 tokens) in Hout. fold outs in Hout.
  rewrite <- Hhash in Hout.
  apply list_lookup_total_correct in Hout.
  assert (RollingHash.feed s0 (take (S t) hs)
          = (RollingHash.nextHash (WinnowFilter.hash st) (TokenHash.hashToken x)).1)
    as Hhash'.
  { by rewrite (take_S_r _ _ _ Hhx), feed_snoc, Hhash. }
  unfold WinnowFilter.step. rewrite HfilePos. fold k w.
  destruct (RollingHash.nextHash (WinnowFilter.hash st) (TokenHash.hashToken x))
    as [hash' v] eqn:Hnext.
  simpl in Hhash', Hout.
  unfold kgrams_seen in *. fold k w in Hstart, Hmin, Hfps, Hbuffer, HbufferPos, Hlast.
  replace (Z.of_nat (S t)) with (Z.of_nat t + 1) by lia.
  destruct (Z.ltb_spec (Z.of_nat t - k + 1) 0) as [Hwarm|Hrun].
  - (* warm-up: no k-gram yet *)
    eexists. split; [done|]. split; [|by exists []; rewrite app_nil_r].
    rewrite Z.max_l in * by lia.
    constructor; simpl; fold k w hs outs; unfold kgrams_seen; fold k;
      replace (Z.of_nat (S t)) with (Z.of_nat t + 1) by lia;
      rewrite ?Z.max_l by lia; try done; try lia.
  - (* a k-gram is complete *)
    set (n := Z.of_nat t - k + 1) in *.
    rewrite Z.max_r in * by lia. fold n in Hstart, Hmin, Hfps, Hbuffer, HbufferPos, Hlast.
    set (T' := n + 1).
    assert (v = G n) as HvG.
    { rewrite <- Hout. unfold G, kgramHash.
      destruct (Z.ltb_spec n 0); [lia|]. f_equal. unfold n. lia. }
    assert (v = slotHash outs k T') as Hv.
    { rewrite HvG. unfold slotHash, T', G. f_equal. lia. }
    assert (v < MAX_SAFE_INTEGER) as Hvr.
    { rewrite HvG. by apply (kgramHash_lt s0 hs k n). }
    assert ((WinnowFilter.bufferPos st + 1) `rem` w = T' `mod` w) as Hbp'.
    { rewrite HbufferPos. by apply mod_succ_rem. }
    rewrite Hbp'.
    pose proof (Z.mod_pos_bound T' w Hw) as Hbpr.
    set (bp' := T' `mod` w) in *.
    assert (circular (slotHash outs k) w T'
              (<[Z.to_nat bp' := v]> (WinnowFilter.buffer st))) as Hbuffer'.
    { apply circular_write; [done| |done].
      by replace (T' - 1) with n by (unfold T'; lia). }
    set (buffer' := <[Z.to_nat bp' := v]> (WinnowFilter.buffer st)) in *.
    assert (forall m, 0 <= m < w -> buffer' !!! Z.to_nat m = G (held w T' m)) as Hget.
    { intros m Hm. by apply buffer_held. }
    assert (held w T' bp' = n) as Hheld_bp.
    { unfold bp'. rewrite held_newest by done. unfold T'. lia. }
    assert (forall j, T' - w <= j < T' -> G j = buffer' !!! Z.to_nat ((j + 1) `mod` w)) as Hwin.
    { intros j Hj. rewrite Hget by (by apply Z.mod_pos_bound).
      by rewrite held_slot. }
    assert (Forall (fingerprint_ok f tokens s0 T') (WinnowFilter.fingerprints_ st)) as Hfps0.
    { eapply Forall_impl; [exact Hfps|]. intros fp. apply fingerprint_ok_mono.
      unfold T'. lia. }
    assert (forall m, 0 <= m < w -> 0 <= held w T' m ->
              fingerprint_ok f tokens s0 T'
                (WinnowFilter.emit f tokens buffer' m
                   (n + (m - bp' - w) `rem` w)) /\
              n + (m - bp' - w) `rem` w = held w T' m) as Hemit.
    { intros m Hm Hh.
      assert (n + (m - bp' - w) `rem` w = held w T' m) as Hoff.
      { rewrite offset_rem by done. unfold held, bp'.
        rewrite Zminus_mod_idemp_l. unfold T'. lia. }
      split; [|done]. rewrite Hoff.
      pose proof (held_bounds w T' m Hw).
      unfold fingerprint_ok, WinnowFilter.emit. simpl. fold k hs outs G.
      split_and!; try done; try lia. by apply Hget. }
    destruct (Z.eqb_spec (WinnowFilter.minPos st) bp') as [Heq|Hne].
    + (* the slot of the minimum is overwritten: rescan *)
      rewrite Heq.
      destruct (rescan_min buffer' w bp' Hw Hbpr) as (m & Hres & Hm & Hall).
      rewrite Hres. simpl.
      assert (0 <= held w T' m) as Hh.
      { destruct (decide (held w T' m < 0)) as [Hneg|]; [|lia].
        pose proof (Hall bp' Hbpr) as Hle.
        rewrite !Hget, Hheld_bp in Hle by done.
        unfold G in Hle at 1. rewrite kgramHash_filler in Hle by done.
        fold G in Hle. lia. }
      destruct (Hemit m Hm Hh) as [Hok Hoff].
      assert (Forall (fun x => Fingerprint.start x < held w T' m)
                (WinnowFilter.fingerprints_ st)) as Hbefore.
      { eapply Forall_impl; [exact Hlast|]. simpl. intros fp0 Hfp0.
        rewrite Heq in Hfp0. unfold bp' in Hfp0.
        replace n with (T' - 1) in Hfp0 by (unfold T'; lia).
        rewrite held_evicted in Hfp0 by done.
        pose proof (held_bounds w T' m Hw). lia. }
      eexists. split; [done|]. split; [|by eexists].
      constructor; simpl; fold k w hs outs; unfold kgrams_seen; fold k;
        replace (Z.of_nat (S t)) with (Z.of_nat t + 1) by lia;
        replace (Z.of_nat t + 1 - k + 1) with T' by (unfold T', n; lia);
        rewrite ?Z.max_r by (unfold T'; lia); fold G; try done.
      * lia.
      * unfold T'. lia.
      * intros _. split; [done|]. split.
        -- intros j Hj0 Hj. rewrite (Hwin j Hj), <- Hget by done.
           apply Hall. by apply Z.mod_pos_bound.
        -- eexists. split; [apply elem_of_app; right; by apply list_elem_of_singleton|].
           simpl. split; [by apply Hget|done].
      * apply Forall_app. split; [done|]. by apply Forall_singleton.
      * by apply (fingerprints_snoc _ _ (held w T' m)).
      * by apply (fingerprints_snoc _ _ (held w T' m)).
    + (* the minimum stays in the window: compare with the new hash *)
      assert (buffer' !!! Z.to_nat bp' = v) as Hnew.
      { rewrite Hget, Hheld_bp by done. done. }
      assert (held w T' (WinnowFilter.minPos st) = held w n (WinnowFilter.minPos st)) as Hold.
      { unfold T'. by apply held_older. }
      assert (buffer' !!! Z.to_nat (WinnowFilter.minPos st)
              = G (held w n (WinnowFilter.minPos st))) as Hcur.
      { rewrite Hget, Hold by done. done. }
      rewrite Hnew, Hcur.
      destruct (Z.leb_spec v (G (held w n (WinnowFilter.minPos st)))) as [Hle|Hgt].
      * (* the new hash is selected *)
        assert (0 <= held w T' bp') as Hh by lia.
        destruct (Hemit bp' Hbpr Hh) as [Hok Hoff].
        assert (Forall (fun x => Fingerprint.start x < held w T' bp')
                  (WinnowFilter.fingerprints_ st)) as Hbefore.
        { eapply Forall_impl; [exact Hfps|]. intros fp0 (Hfp0 & _). lia. }
        eexists. split; [done|]. split; [|by eexists].
        constructor; simpl; fold k w hs outs; unfold kgrams_seen; fold k;
          replace (Z.of_nat (S t)) with (Z.of_nat t + 1) by lia;
          replace (Z.of_nat t + 1 - k + 1) with T' by (unfold T', n; lia);
          rewrite ?Z.max_r by (unfold T'; lia); fold G; try done.
        -- lia.
        -- unfold T'. lia.
        -- intros _. rewrite Hheld_bp. split; [done|]. split.
           ++ intros j Hj0 Hj. destruct (decide (j = n)) as [->|Hjn]; [lia|].
              destruct (decide (0 < n)) as [Hn|Hn]; [|unfold T' in Hj; lia].
              destruct (Hmin Hn) as (_ & Hminall & _).
              rewrite <- HvG. etrans; [exact Hle|].
              apply Hminall; [done|unfold T' in Hj; lia].
           ++ eexists. split; [apply elem_of_app; right; by apply list_elem_of_singleton|].
              simpl. split; [by rewrite Hnew|]. rewrite Hoff. done.
        -- apply Forall_app. split; [done|]. by apply Forall_singleton.
        -- by apply (fingerprints_snoc _ _ (held w T' bp')).
        -- by apply (fingerprints_snoc _ _ (held w T' bp')).
      * (* the previous minimum is kept *)
        assert (0 < n) as Hn.
        { destruct (decide (0 < n)) as [|Hn0]; [done|].
          assert (n = 0) as Hz by lia.
          destruct (Hstart Hz) as [Hm0 _].
          pose proof (held_bounds w n (WinnowFilter.minPos st) Hw).
          unfold G in Hgt. rewrite kgramHash_filler in Hgt by lia. lia. }
        destruct (Hmin Hn) as (Hh & Hminall & fp & Hfp & Hfph & Hfps').
        eexists. split; [done|]. split; [|by exists []; rewrite app_nil_r].
        constructor; simpl; fold k w hs outs; unfold kgrams_seen; fold k;
          replace (Z.of_nat (S t)) with (Z.of_nat t + 1) by lia;
          replace (Z.of_nat t + 1 - k + 1) with T' by (unfold T', n; lia);
          rewrite ?Z.max_r by (unfold T'; lia); fold G; try done.
        -- lia.
        -- unfold T'. lia.
        -- intros _. rewrite Hold. split; [done|]. split.
           ++ intros j Hj0 Hj. destruct (decide (j = n)) as [->|Hjn]; [lia|].
              apply Hminall; [done|unfold T' in Hj; lia].
           ++ by exists fp.
        -- by rewrite Hold.
Qed.

(** *** WinnowFilter: whole runs *)

Lemma winnow_inv_init f tokens s0 :
  0 < WinnowFilter.k f -> 0 < WinnowFilter.windowSize f ->
  winnow_inv f tokens s0 0 (WinnowFilter.init f s0).
Proof.
  intros Hk Hw.
  assert (kgrams_seen (WinnowFilter.k f) (Z.of_nat 0) = 0) as HT
    by (unfold kgrams_seen; lia).
  constructor; rewrite ?HT; simpl.
  - done.
  - lia.
  - by rewrite Z.mod_0_l by lia.
  - apply circular_init; [done|]. intros u Hu. unfold slotHash.
    apply kgramHash_filler. lia.
  - lia.
  - done.
  - lia.
  - done.
  - constructor.
  - done.
Qed.

Lemma hashTokens_lookup tokens (t : nat) x :
  tokens !! t = Some x ->
  WinnowFilter.hashTokens tokens !! t = Some (TokenHash.hashToken x, x).
Proof.
  intros Hx. unfold WinnowFilter.hashTokens.
  change (map ?f ?l) with (f <$> l). by rewrite list_lookup_fmap, Hx.
Qed.

Lemma hashTokens_length tokens :
  length (WinnowFilter.hashTokens tokens) = length tokens.
Proof. unfold WinnowFilter.hashTokens. apply length_map. Qed.

(** Running the loop over the first [t] tokens. *)
Lemma winnow_run_to f tokens s0 :
  0 < WinnowFilter.k f -> 0 < WinnowFilter.windowSize f ->
  forall t : nat, (t <= length tokens)%nat ->
    exists st,
      foldM (WinnowFilter.step f tokens) (WinnowFilter.init f s0)
        (take t (WinnowFilter.hashTokens tokens)) = Some st /\
      winnow_inv f tokens s0 t st.
Proof.
  intros Hk Hw. induction t as [|t IH]; intros Ht.
  - exists (WinnowFilter.init f s0). split; [by rewrite take_0|].
    by apply winnow_inv_init.
  - destruct IH as (st & Hrun & Hinv); [lia|].
    destruct (lookup_lt_is_Some_2 tokens t ltac:(lia)) as [x Hx].
    destruct (winnow_step f tokens s0 t st x Hk Hw Hx Hinv) as (st' & Hstep & Hinv' & _).
    exists st'. split; [|done].
    rewrite (take_S_r _ _ _ (hashTokens_lookup _ _ _ Hx)), foldM_app, Hrun.
    change (foldM (WinnowFilter.step f tokens) st [(TokenHash.hashToken x, x)] = Some st').
    by rewrite foldM_singleton.
Qed.

(** Running the loop over the remaining tokens only appends fingerprints. *)
Lemma winnow_run_from f tokens s0 :
  0 < WinnowFilter.k f -> 0 < WinnowFilter.windowSize f ->
  forall (d t : nat) st, (t + d = length tokens)%nat ->
    winnow_inv f tokens s0 t st ->
    exists st',
      foldM (WinnowFilter.step f tokens) st
        (drop t (WinnowFilter.hashTokens tokens)) = Some st' /\
      winnow_inv f tokens s0 (length tokens) st' /\
      exists new,
        WinnowFilter.fingerprints_ st' = WinnowFilter.fingerprints_ st ++ new.
Proof.
  intros Hk Hw. induction d as [|d IH]; intros t st Ht Hinv.
  - exists st. rewrite drop_ge by (rewrite hashTokens_length; lia).
    split; [done|]. rewrite Nat.add_0_r in Ht. subst t.
    split; [done|]. exists []. by rewrite app_nil_r.
  - destruct (lookup_lt_is_Some_2 tokens t ltac:(lia)) as [x Hx].
    destruct (winnow_step f tokens s0 t st x Hk Hw Hx Hinv)
      as (st1 & Hstep & Hinv1 & new1 & Hnew1).
    destruct (IH (S t) st1 ltac:(lia) Hinv1) as (st' & Hrun & Hinv' & new & Hnew).
    exists st'. split; [|split; [done|]].
    + rewrite (drop_S _ _ _ (hashTokens_lookup _ _ _ Hx)), foldM_cons, Hstep.
      exact Hrun.
    + exists (new1 ++ new). by rewrite Hnew, Hnew1, app_assoc.
Qed.

(** [fingerprints] returns, and its final state satisfies the invariant;
    the state after any prefix satisfies it too, and its fingerprints are
    a prefix of the result. *)
Lemma fingerprints_run f tokens :
  0 < WinnowFilter.k f -> 0 < WinnowFilter.windowSize f ->
  exists s0 st,
    RollingHash.new (WinnowFilter.k f) = Some s0 /\
    WinnowFilter.fingerprints f tokens = Some (WinnowFilter.fingerprints_ st) /\
    winnow_inv f tokens s0 (length tokens) st /\
    forall t : nat, (t <= length tokens)%nat ->
      exists st_t new,
        winnow_inv f tokens s0 t st_t /\
        WinnowFilter.fingerprints_ st
        = WinnowFilter.fingerprints_ st_t ++ new.
Proof.
  intros Hk Hw.
  destruct (new_total (WinnowFilter.k f)) as [s0 Hs0].
  destruct (winnow_run_to f tokens s0 Hk Hw (length tokens) ltac:(lia))
    as (st & Hrun & Hinv).
  rewrite <- hashTokens_length, take_ge in Hrun by lia.
  exists s0, st. split; [done|]. split.
  { unfold WinnowFilter.fingerprints. rewrite Hs0. simpl. by rewrite Hrun. }
  split; [done|].
  intros t Ht.
  destruct (winnow_run_to f tokens s0 Hk Hw t Ht) as (st_t & Hrun_t & Hinv_t).
  destruct (winnow_run_from f tokens s0 Hk Hw (length tokens - t) t st_t
              ltac:(lia) Hinv_t) as (st' & Hrun' & _ & new & Hnew).
  exists st_t, new. split; [done|].
  assert (Some st' = Some st) as [= ->]; [|done].
  rewrite <- Hrun, <- Hrun'.
  rewrite <- (take_drop t (WinnowFilter.hashTokens tokens)) at 2.
  by rewrite foldM_app, Hrun_t.
Qed.

(** *** Every full window contributes its minimum *)

Lemma rolling_output_reference k s0 hs (t : nat) :
  1 <= k < 2 ^ 31 -> RollingHash.new k = Some s0 -> token_hashes hs ->
  (t < length hs)%nat ->
  RollingHash.outputs s0 hs !!! t = referenceHash (windowAt hs (Z.of_nat t) k).
Proof.
  intros Hk Hnew Hhs Ht.
  destruct (new_inv hs k Hk) as (s0' & Hnew' & Hinv0).
  assert (s0' = s0) as -> by congruence.
  destruct (lookup_lt_is_Some_2 hs t Ht) as [x Hx].
  apply list_lookup_total_correct.
  rewrite (outputs_lookup _ _ _ _ Hx). f_equal.
  apply rolling_inv_step; [lia|lia|done| |by apply tokenAt_lookup].
  apply feed_inv; [lia|done|done|lia].
Qed.

Lemma kgramHash_window k s0 (tokens : list token) n :
  1 <= k < 2 ^ 31 -> RollingHash.new k = Some s0 ->
  0 <= n -> n + k <= Z.of_nat (length tokens) ->
  kgramHash (rolling_outputs s0 tokens) k n
  = referenceHash
      (TokenHash.hashToken <$> take (Z.to_nat k) (drop (Z.to_nat n) tokens)).
Proof.
  intros Hk Hnew Hn Hlen. unfold kgramHash, rolling_outputs.
  destruct (Z.ltb_spec n 0); [lia|].
  rewrite (rolling_output_reference k) by
    (done || apply hashTokens_token_hashes || (rewrite length_fmap; lia)).
  f_equal. rewrite windowAt_take_drop by (rewrite ?length_fmap; lia).
  rewrite fmap_take, fmap_drop. do 2 f_equal. lia.
Qed.

Lemma window_minimum_emitted k w kgramData (tokens : list token) (a : Z) :
  1 <= k -> 1 <= w -> 0 <= a ->
  a + w + k - 1 <= Z.of_nat (length tokens) ->
  exists s0 fps fp i,
    RollingHash.new k = Some s0 /\
    WinnowFilter.fingerprints (WinnowFilter.mk k w kgramData) tokens = Some fps /\
    fp ∈ fps /\ 0 <= i < w /\
    Fingerprint.start fp = a + i /\
    Fingerprint.hash fp = kgramHash (rolling_outputs s0 tokens) k (a + i) /\
    forall j, 0 <= j < w ->
      kgramHash (rolling_outputs s0 tokens) k (a + i)
      <= kgramHash (rolling_outputs s0 tokens) k (a + j).
Proof.
  intros Hk Hw Ha Hlen.
  destruct (fingerprints_run (WinnowFilter.mk k w kgramData) tokens)
    as (s0 & st & Hnew & Hres & _ & Hpre); [simpl; lia..|].
  destruct (Hpre (Z.to_nat (a + w + k - 1)) ltac:(lia)) as (st_t & new & Hinv & Happ).
  pose proof (wi_min _ _ _ _ _ Hinv) as Hmin. simpl in Hmin.
  assert (kgrams_seen k (Z.of_nat (Z.to_nat (a + w + k - 1))) = a + w) as HT
    by (unfold kgrams_seen; lia).
  rewrite HT in Hmin.
  destruct (Hmin ltac:(lia)) as (Hh & Hall & fp & Hfp & Hhash & Hstart).
  pose proof (held_bounds w (a + w) (WinnowFilter.minPos st_t) ltac:(lia)) as Hb.
  set (h := held w (a + w) (WinnowFilter.minPos st_t)) in *.
  exists s0, (WinnowFilter.fingerprints_ st), fp, (h - a).
  replace (a + (h - a)) with h by lia.
  split_and!; try done; try lia.
  - rewrite Happ. apply elem_of_app. by left.
  - intros j Hj. apply Hall; lia.
Qed.

Lemma shared_kgram (pa S sa : list token) (k i : nat) :
  (i + k <= length S)%nat ->
  take k (drop (length pa + i) (pa ++ S ++ sa)) = take k (drop i S).
Proof.
  intros Hi.
  rewrite drop_app_ge by lia.
  replace (length pa + i - length pa)%nat with i by lia.
  rewrite drop_app_le by lia.
  rewrite take_app_le; [done|]. rewrite length_drop. lia.
Qed.

(** *** Region *)

Lemma valid_iff sr sc er ec :
  Region.valid sr sc er ec = true <-> pos_le sr sc er ec.
Proof. unfold Region.valid, pos_le. lia. Qed.

Lemma new_valid sr sc er ec :
  pos_le sr sc er ec -> Region.new sr sc er ec = inr (Region.mk sr sc er ec).
Proof. intros H%valid_iff. unfold Region.new. by rewrite H. Qed.

Lemma new_inr_wf sr sc er ec r :
  Region.new sr sc er ec = inr r -> region_wf r /\ r = Region.mk sr sc er ec.
Proof.
  unfold Region.new, region_wf.
  destruct (Region.valid sr sc er ec) eqn:E; simpl; [|done].
  intros [= <-]. by simpl.
Qed.

Lemma merge_wf one other :
  region_wf one -> region_wf other ->
  exists m, Region.merge one other = inr m /\ region_wf m /\
    covers m one /\ covers m other /\
    (forall r, covers r one -> covers r other -> covers r m).
Proof.
  destruct one as [a b c d], other as [a' b' c' d'].
  unfold region_wf, Region.merge, Region.new, covers, pos_le, Region.valid; simpl.
  intros H1 H2.
  eexists. split.
  - match goal with |- (if negb ?b then _ else _) = _ =>
      assert (b = true) as -> end; [|reflexivity].
    repeat case_match; lia.
  - simpl. split; [|split; [|split]].
    + repeat case_match; lia.
    + repeat case_match; lia.
    + repeat case_match; lia.
    + intros [a0 b0 c0 d0]; simpl. repeat case_match; lia.
Qed.

(** *** The detector never throws on fingerprints of a filter *)

Lemma estimatePosition_ordered a b :
  0 <= a <= b ->
  pos_le (PascalPlagiarismDetector.estimatePosition a).1
         (PascalPlagiarismDetector.estimatePosition a).2
         (PascalPlagiarismDetector.estimatePosition b).1
         (PascalPlagiarismDetector.estimatePosition b).2.
Proof.
  intros H. unfold PascalPlagiarismDetector.estimatePosition, pos_le. simpl.
  rewrite !rem_mod_nonneg by lia.
  pose proof (Z.div_mod a 10 ltac:(lia)). pose proof (Z.div_mod b 10 ltac:(lia)).
  pose proof (Z.mod_pos_bound a 10 ltac:(lia)).
  pose proof (Z.mod_pos_bound b 10 ltac:(lia)). lia.
Qed.

Lemma mapR_total {A B : Type} (f : A -> result B) (P : A -> Prop) l :
  (forall x, P x -> exists y, f x = inr y) -> Forall P l ->
  exists ys, mapR f l = inr ys /\ length ys = length l.
Proof.
  intros Hf. induction 1 as [|x r Hx _ (ys & IH & Hlen)]; simpl.
  - by exists [].
  - destruct (Hf x Hx) as [y ->]. simpl. rewrite IH. simpl.
    exists (y :: ys). by rewrite <- Hlen.
Qed.

Lemma createRegions_total n fps :
  Forall (ok_fp n) fps ->
  exists rs, PascalPlagiarismDetector.createRegionsFromFingerprints fps = inr rs /\
             length rs = length fps.
Proof.
  intros H. apply (mapR_total _ (ok_fp n)); [|done].
  intros e [He _]. cbv beta zeta.
  rewrite new_valid by (by apply estimatePosition_ordered).
  by eexists.
Qed.

Lemma insert_by_Forall {A : Type} (key : A -> Z) (P : A -> Prop) x l :
  P x -> Forall P l -> Forall P (insert_by key x l).
Proof.
  intros Hx. induction 1 as [|y r Hy Hr IH]; simpl; [by constructor|].
  case_match; by repeat constructor.
Qed.

Lemma sort_by_Forall {A : Type} (key : A -> Z) (P : A -> Prop) l :
  Forall P l -> Forall P (sort_by key l).
Proof.
  induction 1 as [|x r Hx _ IH]; simpl; [done|]. by apply insert_by_Forall.
Qed.

Lemma insert_by_length {A : Type} (key : A -> Z) x (l : list A) :
  length (insert_by key x l) = S (length l).
Proof. induction l as [|y r IH]; simpl; [done|]. case_match; simpl; lia. Qed.

Lemma sort_by_length {A : Type} (key : A -> Z) (l : list A) :
  length (sort_by key l) = length l.
Proof.
  induction l as [|x r IH]; simpl; [done|]. by rewrite insert_by_length, IH.
Qed.

Lemma group_push_Forall {A : Type} (P : A -> Prop) h x (m : list (Z * list A)) :
  P x -> Forall (fun g => Forall P g.2) m ->
  Forall (fun g => Forall P g.2) (group_push h x m).
Proof.
  intros Hx. induction 1 as [|[h' xs] r Hg Hr IH]; simpl.
  - by repeat constructor.
  - case_match; constructor; simpl in *; try done.
    apply Forall_app. by split; [|repeat constructor].
Qed.

Lemma group_get_Forall {A : Type} (P : A -> Prop) h (m : list (Z * list A)) xs :
  Forall (fun g => Forall P g.2) m -> group_get h m = Some xs -> Forall P xs.
Proof.
  induction 1 as [|[h' ys] r Hg Hr IH]; simpl; [done|].
  case_match; [by intros [= <-]|done].
Qed.

Lemma hashMap_Forall (P : PascalPlagiarismDetector.EnhancedFingerprint -> Prop) fps :
  Forall P fps ->
  Forall (fun g => Forall P g.2) (PascalPlagiarismDetector.hashMap fps).
Proof.
  unfold PascalPlagiarismDetector.hashMap.
  assert (forall m, Forall (fun g => Forall P g.2) m -> Forall P fps ->
            Forall (fun g => Forall P g.2)
              (fold_left (fun m fp_ =>
                 group_push (Fingerprint.hash (PascalPlagiarismDetector.fp fp_)) fp_ m)
                 fps m)) as H; [|by apply H].
  induction fps as [|x r IH]; intros m Hm Hall; simpl; [done|].
  inversion Hall; subst. apply IH; [|done]. by apply group_push_Forall.
Qed.

Lemma findMatches_ok n1 n2 fps1 fps2 :
  Forall (ok_fp n1) fps1 -> Forall (ok_fp n2) fps2 ->
  Forall (ok_match n1 n2) (PascalPlagiarismDetector.findMatches fps1 fps2).
Proof.
  intros H1 H2. unfold PascalPlagiarismDetector.findMatches.
  apply Forall_flat_map.
  pose proof (hashMap_Forall (ok_fp n1) fps1 H1) as Hm1.
  pose proof (hashMap_Forall (ok_fp n2) fps2 H2) as Hm2.
  eapply Forall_impl; [exact Hm1|].
  intros [h xs] Hxs. simpl in Hxs.
  destruct (group_get h (PascalPlagiarismDetector.hashMap fps2)) as [ys|] eqn:E;
    [|done].
  pose proof (group_get_Forall (ok_fp n2) _ _ _ Hm2 E) as Hys.
  apply Forall_flat_map. eapply Forall_impl; [exact Hxs|].
  intros e1 He1. apply Forall_map. eapply Forall_impl; [exact Hys|].
  intros e2 He2. by split.
Qed.

Lemma foldR_cons {A S : Type} (f : S -> A -> result S) x r s :
  foldR f s (x :: r) = rbind (f s x) (fun s' => foldR f s' r).
Proof. reflexivity. Qed.

Lemma list_min_le x l : PascalPlagiarismDetector.list_min x l <= x.
Proof.
  unfold PascalPlagiarismDetector.list_min. revert x.
  induction l as [|y r IH]; intros x; simpl; [lia|].
  specialize (IH (Z.min x y)). lia.
Qed.

Lemma list_min_lower c x l :
  c <= x -> Forall (fun y => c <= y) l ->
  c <= PascalPlagiarismDetector.list_min x l.
Proof.
  unfold PascalPlagiarismDetector.list_min. intros Hx Hl. revert x Hx.
  induction Hl as [|y r Hy _ IH]; intros x Hx; simpl; [done|].
  apply IH. lia.
Qed.

Lemma list_max_ge x l : x <= PascalPlagiarismDetector.list_max x l.
Proof.
  unfold PascalPlagiarismDetector.list_max. revert x.
  induction l as [|y r IH]; intros x; simpl; [lia|].
  specialize (IH (Z.max x y)). lia.
Qed.

Lemma list_max_upper c x l :
  x < c -> Forall (fun y => y < c) l ->
  PascalPlagiarismDetector.list_max x l < c.
Proof.
  unfold PascalPlagiarismDetector.list_max. intros Hx Hl. revert x Hx.
  induction Hl as [|y r Hy _ IH]; intros x Hx; simpl; [done|].
  apply IH. lia.
Qed.

Lemma createSharedRegion_total n1 n2 d cluster tokens1 tokens2 :
  cluster <> [] -> Forall (ok_match n1 n2) cluster ->
  exists r,
    PascalPlagiarismDetector.createSharedRegion d cluster tokens1 tokens2 = inr r /\
    ok_shared n1 n2 r.
Proof.
  intros Hne Hall. destruct cluster as [|m ms]; [done|].
  inversion Hall as [|? ? [Hm1 Hm2] Hms]; subst.
  unfold PascalPlagiarismDetector.createSharedRegion. cbv beta zeta.
  cbn [PascalPlagiarismDetector.start PascalPlagiarismDetector.end_].
  set (s1 := PascalPlagiarismDetector.list_min _ _).
  set (e1 := PascalPlagiarismDetector.list_max _ _).
  set (s2 := PascalPlagiarismDetector.list_min _ _).
  set (e2 := PascalPlagiarismDetector.list_max _ _).
  assert (0 <= s1 <= e1 /\ e1 < n1) as [H1 H1'].
  { unfold ok_fp in Hm1. split; [split|].
    - apply list_min_lower; [lia|]. apply Forall_map.
      eapply Forall_impl; [exact Hms|]. intros x [Hx _]. unfold ok_fp in Hx. simpl. lia.
    - pose proof (list_min_le (Fingerprint.start
                    (PascalPlagiarismDetector.fp (PascalPlagiarismDetector.fp1 m)))
                    (map (fun m => Fingerprint.start
                       (PascalPlagiarismDetector.fp (PascalPlagiarismDetector.fp1 m))) ms)).
      pose proof (list_max_ge (Fingerprint.stop
                    (PascalPlagiarismDetector.fp (PascalPlagiarismDetector.fp1 m)))
                    (map (fun m => Fingerprint.stop
                       (PascalPlagiarismDetector.fp (PascalPlagiarismDetector.fp1 m))) ms)).
      subst s1 e1. lia.
    - apply list_max_upper; [lia|]. apply Forall_map.
      eapply Forall_impl; [exact Hms|]. intros x [Hx _]. unfold ok_fp in Hx. simpl. lia. }
  assert (0 <= s2 <= e2 /\ e2 < n2) as [H2 H2'].
  { unfold ok_fp in Hm2. split; [split|].
    - apply list_min_lower; [lia|]. apply Forall_map.
      eapply Forall_impl; [exact Hms|]. intros x [_ Hx]. unfold ok_fp in Hx. simpl. lia.
    - pose proof (list_min_le (Fingerprint.start
                    (PascalPlagiarismDetector.fp (PascalPlagiarismDetector.fp2 m)))
                    (map (fun m => Fingerprint.start
                       (PascalPlagiarismDetector.fp (PascalPlagiarismDetector.fp2 m))) ms)).
      pose proof (list_max_ge (Fingerprint.stop
                    (PascalPlagiarismDetector.fp (PascalPlagiarismDetector.fp2 m)))
                    (map (fun m => Fingerprint.stop
                       (PascalPlagiarismDetector.fp (PascalPlagiarismDetector.fp2 m))) ms)).
      subst s2 e2. lia.
    - apply list_max_upper; [lia|]. apply Forall_map.
      eapply Forall_impl; [exact Hms|]. intros x [_ Hx]. unfold ok_fp in Hx. simpl. lia. }
  pose proof (estimatePosition_ordered s1 e1 H1) as Hv1.
  pose proof (estimatePosition_ordered s2 e2 H2) as Hv2.
  rewrite (new_valid _ _ _ _ Hv1), (new_valid _ _ _ _ Hv2). simpl.
  eexists. split; [done|].
  unfold ok_shared, ok_range, region_wf; simpl.
  split_and!; try (by apply valid_iff); lia.
Qed.

Lemma finalize_total n1 n2 d tokens1 tokens2 regions cluster :
  Forall (ok_match n1 n2) cluster -> Forall (ok_shared n1 n2) regions ->
  exists regions',
    PascalPlagiarismDetector.finalize d tokens1 tokens2 regions cluster
      = inr regions' /\
    Forall (ok_shared n1 n2) regions' /\
    (length regions <= length regions' <= S (length regions))%nat /\
    ((length cluster < 2)%nat -> regions' = regions) /\
    ((2 <= length cluster)%nat -> length regions' = S (length regions)).
Proof.
  intros Hc Hr. unfold PascalPlagiarismDetector.finalize.
  destruct (Nat.leb_spec 2 (length cluster)) as [Hlen|Hlen].
  - destruct (createSharedRegion_total n1 n2 d cluster tokens1 tokens2) as (r & -> & Hok);
      [destruct cluster; [simpl in Hlen; lia|done]|done|].
    simpl. eexists. split; [done|]. split.
    + apply Forall_app. split; [done|by apply Forall_singleton].
    + rewrite length_app. simpl. split_and!; lia.
  - exists regions. split_and!; (done || lia).
Qed.

Lemma clusterStep_total n1 n2 d tokens1 tokens2 regions cluster m :
  Forall (ok_match n1 n2) cluster -> Forall (ok_shared n1 n2) regions -> (ok_match n1 n2) m ->
  exists regions' cluster',
    PascalPlagiarismDetector.clusterStep d tokens1 tokens2 (regions, cluster) m
      = inr (regions', cluster') /\
    Forall (ok_match n1 n2) cluster' /\ Forall (ok_shared n1 n2) regions'.
Proof.
  intros Hc Hr Hm. unfold PascalPlagiarismDetector.clusterStep.
  destruct (last cluster) as [lastMatch|].
  - case_match.
    + eexists _, _. split; [done|]. split; [|done].
      apply Forall_app. split; [done|by apply Forall_singleton].
    + destruct (finalize_total n1 n2 d tokens1 tokens2 regions cluster Hc Hr)
        as (regions' & -> & Hok & _).
      simpl. eexists _, _. split; [done|]. split; [by apply Forall_singleton|done].
  - eexists _, _. split; [done|]. split; [|done].
    apply Forall_app. split; [done|by apply Forall_singleton].
Qed.

Lemma clusterLoop_total n1 n2 d tokens1 tokens2 matches : forall regions cluster,
  Forall (ok_match n1 n2) matches ->
  Forall (ok_match n1 n2) cluster -> Forall (ok_shared n1 n2) regions ->
  exists regions' cluster',
    foldR (PascalPlagiarismDetector.clusterStep d tokens1 tokens2)
      (regions, cluster) matches = inr (regions', cluster') /\
    Forall (ok_match n1 n2) cluster' /\ Forall (ok_shared n1 n2) regions'.
Proof.
  induction matches as [|m ms IH]; intros regions cluster Hms Hc Hr.
  - by eexists _, _.
  - inversion Hms; subst. rewrite foldR_cons.
    destruct (clusterStep_total n1 n2 d tokens1 tokens2 regions cluster m)
      as (r1 & c1 & -> & Hc1 & Hr1); [done..|].
    simpl. by apply IH.
Qed.

Lemma mergeTwo_total n1 n2 current next :
  (ok_shared n1 n2) current -> (ok_shared n1 n2) next ->
  exists r, PascalPlagiarismDetector.mergeTwo current next = inr r /\ ok_shared n1 n2 r.
Proof.
  intros (Hc1 & Hc2 & Hc3 & Hc4) (Hn1 & Hn2 & Hn3 & Hn4).
  unfold PascalPlagiarismDetector.mergeTwo.
  destruct (merge_wf _ _ Hc1 Hn1) as (m1 & -> & Hm1 & _).
  destruct (merge_wf _ _ Hc2 Hn2) as (m2 & -> & Hm2 & _).
  simpl. eexists. split; [done|].
  unfold ok_shared, ok_range in *. simpl. split_and!; try done; lia.
Qed.

Lemma mergeLoop_total n1 n2 rest : forall merged current,
  Forall (ok_shared n1 n2) rest -> Forall (ok_shared n1 n2) merged -> (ok_shared n1 n2) current ->
  exists merged' current',
    foldR PascalPlagiarismDetector.mergeStep (merged, current) rest
      = inr (merged', current') /\
    Forall (ok_shared n1 n2) merged' /\ (ok_shared n1 n2) current'.
Proof.
  induction rest as [|next rest IH]; intros merged current Hrest Hm Hc.
  - by eexists _, _.
  - inversion Hrest; subst. rewrite foldR_cons.
    unfold PascalPlagiarismDetector.mergeStep at 1. case_match.
    + destruct (mergeTwo_total n1 n2 current next) as (r & -> & Hr); [done..|].
      simpl. by apply IH.
    + simpl. apply IH; [done| |done].
      apply Forall_app. split; [done|by apply Forall_singleton].
Qed.

Lemma mergeOverlappingRegions_total n1 n2 regions :
  Forall (ok_shared n1 n2) regions ->
  exists merged,
    PascalPlagiarismDetector.mergeOverlappingRegions regions = inr merged /\
    Forall (ok_shared n1 n2) merged.
Proof.
  intros Hr. unfold PascalPlagiarismDetector.mergeOverlappingRegions.
  case_match; [by exists regions|].
  pose proof (sort_by_Forall
                (fun r => PascalPlagiarismDetector.start
                            (PascalPlagiarismDetector.file1Range r))
                (ok_shared n1 n2) regions Hr) as Hs.
  destruct (sort_by _ regions) as [|first rest]; [by exists []|].
  inversion Hs; subst.
  destruct (mergeLoop_total n1 n2 rest [] first) as (m & c & -> & Hm & Hc); [done..|].
  simpl. eexists. split; [done|].
  apply Forall_app. split; [done|by apply Forall_singleton].
Qed.

Lemma clusterMatchesIntoRegions_total n1 n2 d matches tokens1 tokens2 :
  Forall (ok_match n1 n2) matches ->
  exists regions,
    PascalPlagiarismDetector.clusterMatchesIntoRegions d matches tokens1 tokens2
      = inr regions /\
    Forall (ok_shared n1 n2) regions.
Proof.
  intros Hm. unfold PascalPlagiarismDetector.clusterMatchesIntoRegions.
  destruct (clusterLoop_total n1 n2 d tokens1 tokens2 matches [] [])
    as (r & c & -> & Hc & Hr); [done..|].
  simpl.
  destruct (finalize_total n1 n2 d tokens1 tokens2 r c Hc Hr) as (r' & -> & Hr' & _).
  simpl. by apply mergeOverlappingRegions_total.
Qed.

Lemma findSharedRegions_total n1 n2 d fps1 fps2 tokens1 tokens2 :
  Forall (ok_fp n1) fps1 -> Forall (ok_fp n2) fps2 ->
  exists regions,
    PascalPlagiarismDetector.findSharedRegions d fps1 fps2 tokens1 tokens2
      = inr regions /\
    Forall (ok_shared n1 n2) regions.
Proof.
  intros H1 H2. unfold PascalPlagiarismDetector.findSharedRegions.
  case_match; [by exists []|].
  apply (clusterMatchesIntoRegions_total n1 n2), sort_by_Forall.
  by apply findMatches_ok.
Qed.




(** *** compareTwoFiles *)

Lemma ratio_Q a b :
  (this (ratio a b) == inject_Z (Z.of_nat a) / inject_Z (Z.of_nat b))%Q.
Proof.
  unfold ratio, Qcdiv, Qcmult, Qcinv, Q2Qc. simpl.
  rewrite !Qred_correct. reflexivity.
Qed.



Lemma filter_elem_of_intersection (X Y : gset Z) :
  filter (fun f => f ∈ Y) X = X ∩ Y.
Proof.
  apply set_eq. intros x. rewrite elem_of_filter, elem_of_intersection. tauto.
Qed.





(** Short inputs. *)
Lemma fingerprints_short k w kgramData (tokens : list token) :
  1 <= k -> 1 <= w -> Z.of_nat (length tokens) < k ->
  WinnowFilter.fingerprints (WinnowFilter.mk k w kgramData) tokens = Some [].
Proof.
  intros Hk Hw Hts.
  destruct (fingerprints_run (WinnowFilter.mk k w kgramData) tokens)
    as (s0 & st & _ & Hres & Hinv & _); [simpl; lia..|].
  rewrite Hres. f_equal.
  apply (wi_start _ _ _ _ _ Hinv). simpl. unfold kgrams_seen. lia.
Qed.

(** Positions of the emitted fingerprints, and existence of one as soon
    as the file has a k-gram. *)
Lemma fingerprints_positions k w kgramData (tokens : list token) :
  1 <= k -> 1 <= w ->
  exists fps,
    WinnowFilter.fingerprints (WinnowFilter.mk k w kgramData) tokens = Some fps /\
    Forall (fun fp =>
              0 <= Fingerprint.start fp /\
              Fingerprint.stop fp = Fingerprint.start fp + k - 1 /\
              Fingerprint.stop fp <= Z.of_nat (length tokens) - 1) fps /\
    (k <= Z.of_nat (length tokens) -> fps <> []).
Proof.
  intros Hk Hw.
  destruct (fingerprints_run (WinnowFilter.mk k w kgramData) tokens)
    as (s0 & st & _ & Hres & Hinv & _); [simpl; lia..|].
  eexists. split; [exact Hres|]. split.
  - eapply Forall_impl; [exact (wi_fps _ _ _ _ _ Hinv)|].
    intros fp (Hstart & Hstop & _). simpl in *. unfold kgrams_seen in Hstart. lia.
  - intros Hlen.
    destruct (wi_min _ _ _ _ _ Hinv) as (_ & _ & fp & Hfp & _).
    { simpl. unfold kgrams_seen. lia. }
    intros Hnil. rewrite Hnil in Hfp. by apply elem_of_nil in Hfp.
Qed.

Lemma generateFingerprints_spec d k w (tokens : list token) :
  1 <= k -> 1 <= w ->
  PascalPlagiarismDetector.kgramSize d = k ->
  PascalPlagiarismDetector.winnowFilter d = WinnowFilter.mk k w true ->
  exists fps rs,
    WinnowFilter.fingerprints (WinnowFilter.mk k w true) tokens = Some fps /\
    PascalPlagiarismDetector.generateFingerprints d tokens
    = inr (PascalPlagiarismDetector.mkData (hash_set fps)
             (Fingerprint.hash <$> fps)
             (PascalPlagiarismDetector.enhance <$> fps) rs) /\
    Forall (ok_fp (Z.of_nat (length tokens)))
      (PascalPlagiarismDetector.enhance <$> fps).
Proof.
  intros Hk Hw Hd Hf. unfold PascalPlagiarismDetector.generateFingerprints.
  rewrite Hd, Hf.
  destruct (Z.ltb_spec (Z.of_nat (length tokens)) k) as [Hshort|Hlong].
  - exists [], []. rewrite fingerprints_short by done. by split_and!.
  - destruct (fingerprints_positions k w true tokens Hk Hw) as (fps & Hres & Hpos & _).
    rewrite Hres. simpl.
    assert (Forall (ok_fp (Z.of_nat (length tokens)))
              (PascalPlagiarismDetector.enhance <$> fps)) as Hok.
    { apply Forall_fmap. eapply Forall_impl; [exact Hpos|].
      intros fp (H1 & H2 & H3). unfold ok_fp. simpl. lia. }
    destruct (createRegions_total _ _ Hok) as (rs & Hrs & _).
    change (map ?f ?l) with (f <$> l). rewrite Hrs. simpl.
    exists fps, rs. by split_and!.
Qed.


(** ** Part IV: the documented properties *)

(** *** Short inputs and index bounds *)





(** *** The rolling hash and the winnowing guarantee *)

(** C2: for a window length [1 <= k] (below [2^31], the range of the 32-bit
    shift in [modPow]) and token hashes as [TokenHash] produces them, the
    value [nextHash] returns at position [i >= k - 1] is the reference hash
    of the [k] most recent token hashes: the sum of
    [tokenHash[i-k+1+j] * BASE^(k-1-j)] modulo [MOD], which is also what
    Horner's rule computes from scratch on that window. *)
Theorem C2_rolling_hash_equals_reference (k : Z) (hs : list Z) (i : nat) :
  1 <= k < 2 ^ 31 -> token_hashes hs ->
  k - 1 <= Z.of_nat i -> (i < length hs)%nat ->
  let window := take (Z.to_nat k) (drop (Z.to_nat (Z.of_nat i - k + 1)) hs) in
  exists s0,
    RollingHash.new k = Some s0 /\
    RollingHash.outputs s0 hs !! i = Some (referenceHash window) /\
    hornerHash window = referenceHash window /\
    Z.of_nat (length window) = k.
Proof.
  intros Hk Hhs Hi Hlen window.
  destruct (new_total k) as [s0 Hnew]. exists s0. split; [done|].
  split; [|split; [apply hornerHash_referenceHash|]].
  - rewrite (list_lookup_lookup_total_lt (RollingHash.outputs s0 hs) i)
      by (rewrite outputs_length; lia).
    f_equal. rewrite (rolling_output_reference k) by done.
    f_equal. apply windowAt_take_drop; lia.
  - unfold window. rewrite length_take, length_drop. lia.
Qed.

Lemma C2_rolling_hash_witness :
  exists s0,
    RollingHash.new 2 = Some s0 /\
    RollingHash.outputs s0 [5; 7; 11] !! 2%nat = Some (referenceHash [7; 11]) /\
    hornerHash [7; 11] = referenceHash [7; 11] /\
    Z.of_nat (length [7; 11]) = 2.
Proof.
  apply (C2_rolling_hash_equals_reference 2 [5; 7; 11] 2).
  - lia.
  - repeat constructor; done.
  - simpl; lia.
  - simpl; lia.
Defined.

(** C1: for [k >= 1] (below [2^31]) and [w >= 1], if two token sequences
    both contain the same contiguous run of at least [k + w - 1] tokens,
    their fingerprint sequences contain a fingerprint with the same hash. *)
Theorem C1_winnowing_guarantee
    (k w : Z) (kgramDataA kgramDataB : bool) (pa sa pb sb shared : list token) :
  1 <= k < 2 ^ 31 -> 1 <= w ->
  k + w - 1 <= Z.of_nat (length shared) ->
  exists fpsA fpsB fpA fpB,
    WinnowFilter.fingerprints (WinnowFilter.mk k w kgramDataA)
      (pa ++ shared ++ sa) = Some fpsA /\
    WinnowFilter.fingerprints (WinnowFilter.mk k w kgramDataB)
      (pb ++ shared ++ sb) = Some fpsB /\
    fpA ∈ fpsA /\ fpB ∈ fpsB /\
    Fingerprint.hash fpA = Fingerprint.hash fpB.
Proof.
  intros Hk Hw Hlen.
  destruct (window_minimum_emitted k w kgramDataA (pa ++ shared ++ sa)
              (Z.of_nat (length pa)))
    as (s0 & fpsA & fpA & iA & Hnew & HresA & HfpA & HiA & _ & HhashA & HminA);
    [lia|lia|lia|rewrite !length_app; lia|].
  destruct (window_minimum_emitted k w kgramDataB (pb ++ shared ++ sb)
              (Z.of_nat (length pb)))
    as (s0' & fpsB & fpB & iB & Hnew' & HresB & HfpB & HiB & _ & HhashB & HminB);
    [lia|lia|lia|rewrite !length_app; lia|].
  assert (s0' = s0) as -> by congruence.
  exists fpsA, fpsB, fpA, fpB. split_and!; try done.
  assert (forall j, 0 <= j < w ->
            kgramHash (rolling_outputs s0 (pa ++ shared ++ sa)) k (Z.of_nat (length pa) + j)
            = kgramHash (rolling_outputs s0 (pb ++ shared ++ sb)) k (Z.of_nat (length pb) + j))
    as Hsame.
  { intros j Hj.
    rewrite !(kgramHash_window k s0) by (done || lia || (rewrite !length_app; lia)).
    do 2 f_equal.
    replace (Z.to_nat (Z.of_nat (length pa) + j)) with (length pa + Z.to_nat j)%nat by lia.
    replace (Z.to_nat (Z.of_nat (length pb) + j)) with (length pb + Z.to_nat j)%nat by lia.
    rewrite !shared_kgram by lia. done. }
  rewrite HhashA, HhashB.
  pose proof (HminA iB HiB) as H1. pose proof (HminB iA HiA) as H2.
  rewrite (Hsame iB HiB) in H1. rewrite <- (Hsame iA HiA) in H2. lia.
Qed.

Lemma C1_winnowing_witness :
  exists fpsA fpsB fpA fpB,
    WinnowFilter.fingerprints (WinnowFilter.mk 2 2 false)
      ([[80%N]] ++ [[73%N]; [68%N]; [83%N]] ++ []) = Some fpsA /\
    WinnowFilter.fingerprints (WinnowFilter.mk 2 2 true)
      ([] ++ [[73%N]; [68%N]; [83%N]] ++ [[69%N]; [68%N]]) = Some fpsB /\
    fpA ∈ fpsA /\ fpB ∈ fpsB /\
    Fingerprint.hash fpA = Fingerprint.hash fpB.
Proof.
  apply (C1_winnowing_guarantee 2 2 false true
           [[80%N]] [] [] [[69%N]; [68%N]] [[73%N]; [68%N]; [83%N]]).
  - lia.
  - lia.
  - simpl; lia.
Defined.

(** *** Similarity *)



(** *** Regions *)

(** C7: the constructor of [Region] succeeds, with exactly the given
    coordinates, when [startRow < endRow] or ([startRow = endRow] and
    [startCol <= endCol]); otherwise it throws and no object exists.
    [Region(5,0,3,0)] fails and [Region(2,0,2,5)] succeeds. *)
Theorem C7_region_constructor_checks_validity (sr sc er ec : Z) :
  ((sr < er \/ (sr = er /\ sc <= ec)) /\
     Region.new sr sc er ec = inr (Region.mk sr sc er ec)
   \/
   ~ (sr < er \/ (sr = er /\ sc <= ec)) /\
     Region.new sr sc er ec = inl (Region.InvalidRegion sr sc er ec)) /\
  Region.new 5 0 3 0 = inl (Region.InvalidRegion 5 0 3 0) /\
  Region.new 2 0 2 5 = inr (Region.mk 2 0 2 5).
Proof.
  split; [|done].
  unfold Region.new. destruct (Region.valid sr sc er ec) eqn:E; simpl.
  - left. split; [|done]. by apply valid_iff.
  - right. split; [|done]. intros H. apply valid_iff in H. congruence.
Qed.

(** C8: [Region.merge] of two valid regions returns a valid region that
    covers both and is covered by every region covering both; merging
    [Region(0,0,1,0)] with [Region(1,0,2,0)] gives [Region(0,0,2,0)]. *)
Theorem C8_merge_is_smallest_cover :
  (forall one other : Region.t,
     region_wf one -> region_wf other ->
     exists m,
       Region.merge one other = inr m /\ region_wf m /\
       covers m one /\ covers m other /\
       forall r, covers r one -> covers r other -> covers r m) /\
  Region.merge (Region.mk 0 0 1 0) (Region.mk 1 0 2 0)
    = inr (Region.mk 0 0 2 0).
Proof. split; [apply merge_wf|done]. Qed.

Lemma C8_merge_witness :
  exists m,
    Region.merge (Region.mk 0 0 1 0) (Region.mk 1 0 2 0) = inr m /\ region_wf m /\
    covers m (Region.mk 0 0 1 0) /\ covers m (Region.mk 1 0 2 0) /\
    forall r, covers r (Region.mk 0 0 1 0) -> covers r (Region.mk 1 0 2 0) ->
              covers r m.
Proof.
  apply (proj1 C8_merge_is_smallest_cover (Region.mk 0 0 1 0) (Region.mk 1 0 2 0));
    reflexivity.
Defined.

(** *** Clustering *)



(** *** TokenHash and the tie-break of the rescan *)

(** C5: [hashToken] folds [hash = (hash + charCode) * BASE mod MOD] over
    the code units of the token and returns a value in [[0, MOD)]; [MOD] is
    prime and [BASE] is coprime to it.  [MOD] is [2^25 - 39]: it is below
    [2^25], not at least [2^25]. *)
Theorem C5_token_hash_range_and_constants :
  (forall token : token,
     TokenHash.hashToken token
     = fold_left (fun hash c => ((hash + Z.of_N c) * TokenHash.base) `mod` TokenHash.MOD)
         token 0 /\
     0 <= TokenHash.hashToken token < TokenHash.MOD) /\
  prime TokenHash.MOD /\
  Z.gcd TokenHash.base TokenHash.MOD = 1 /\
  TokenHash.MOD = 2 ^ 25 - 39 /\
  TokenHash.MOD < 2 ^ 25.
Proof.
  split; [|split; [apply MOD_prime|done]].
  intros token. split; [|apply hashToken_range].
  unfold TokenHash.hashToken.
  assert (forall h, 0 <= h < TokenHash.MOD ->
            fold_left (fun hash c => ((hash + Z.of_N c) * TokenHash.base) `rem` TokenHash.MOD) token h
            = fold_left (fun hash c => ((hash + Z.of_N c) * TokenHash.base) `mod` TokenHash.MOD) token h)
    as H; [|by apply H].
  induction token as [|c r IH]; intros h Hh; simpl; [done|].
  rewrite rem_mod_nonneg; [|unfold TokenHash.base; lia|done].
  apply IH. by apply Z.mod_pos_bound.
Qed.

(** C4, evaluated on the tokens [A B B B] with [k = 1] and [w = 2].  The
    k-gram hashes are [hA < hB = hB = hB].  When the third and the fourth
    k-gram enter, the slot of the previous minimum is overwritten and the
    window is rescanned; the entering hash ties the minimum of the window,
    and the rescan selects the older of the two equal slots: the
    fingerprints start at 0, 1 and 2, and position 3 is never selected. *)
Theorem C4_rescan_tie_selects_older_slot :
  let A : token := [65%N] in
  let B : token := [66%N] in
  (s0 ← RollingHash.new 1;
   Some (RollingHash.outputs s0 (TokenHash.hashToken <$> [A; B; B; B])))
  = Some [15019262; 15766549; 15766549; 15766549] /\
  WinnowFilter.fingerprints (WinnowFilter.mk 1 2 false) [A; B; B; B]
  = Some [Fingerprint.mk None 15019262 0 0;
          Fingerprint.mk None 15766549 1 1;
          Fingerprint.mk None 15766549 2 2].
Proof. split; vm_compute; reflexivity. Qed.

(** ** Part V: further properties of the code *)

(** *** RollingHash *)



(** For an exponent of 1 or less the loop of [modPow] is skipped and the
    result is [base % mod]; in particular [modPow(b, 0, m)] is not 1. *)
Theorem modPow_exponent_at_most_one (b e m : Z) :
  e <= 1 -> RollingHash.modPow b e m = Some (b `rem` m).
Proof.
  intros He. unfold RollingHash.modPow. change 32%nat with (S 31).
  rewrite modPow_loop_S. destruct (Z.gtb_spec e 1); [lia|].
  by rewrite Z.mul_1_r.
Qed.

Lemma modPow_exponent_at_most_one_witness :
  RollingHash.modPow 2 0 7 = Some 2.
Proof. apply (modPow_exponent_at_most_one 2 0 7). lia. Defined.






(** Every sum that [nextHash] reduces modulo [MOD] is a non-negative safe
    integer, so the double arithmetic of the source is exact: this holds
    at each position of a sequence of token hashes in [[0, MOD)]. *)
Theorem nextHash_arithmetic_is_exact (k : Z) (hs : list Z) (t : nat) (x : Z) :
  1 <= k < 2 ^ 31 -> token_hashes hs -> hs !! t = Some x ->
  exists s0,
    RollingHash.new k = Some s0 /\
    let s := RollingHash.feed s0 (take t hs) in
    let evicted := RollingHash.memory s !!! Z.to_nat (RollingHash.i s) in
    0 <= RollingHash.base * RollingHash.hash s <= MAX_SAFE_INTEGER /\
    0 <= RollingHash.maxBase s * evicted <= MAX_SAFE_INTEGER /\
    0 <= RollingHash.base * RollingHash.hash s + x
         + RollingHash.maxBase s * evicted <= MAX_SAFE_INTEGER.
Proof.
  intros Hk Hhs Hx.
  destruct (new_inv hs k Hk) as (s0 & Hnew & Hinv0). exists s0. split; [done|].
  pose proof (lookup_lt_Some _ _ _ Hx) as Ht.
  pose proof (feed_inv hs k s0 ltac:(lia) Hhs Hinv0 t ltac:(lia))
    as (Hks & Hmax & Hi & Hmem & Hhash).
  cbv zeta. rewrite Hi.
  assert (0 < k) as Hk0 by lia.
  rewrite (circular_oldest _ _ _ _ Hk0 Hmem), Hmax, Hhash.
  pose proof (tokenAt_nonneg hs (Z.of_nat t - k) Hhs) as Ho.
  pose proof (Forall_lookup_1 _ _ _ _ Hhs Hx) as Hxb. simpl in Hxb.
  unfold referenceHash.
  pose proof (Z.mod_pos_bound (polySum (windowAt hs (Z.of_nat t - 1) k))
                RollingHash.MOD ltac:(done)) as Hh.
  pose proof (Z.mod_pos_bound (RollingHash.base ^ k) RollingHash.MOD ltac:(done)) as Hb.
  set (h := polySum _ `mod` _) in *. set (p := _ ^ _ `mod` _) in *.
  set (o := tokenAt hs _) in *.
  unfold MAX_SAFE_INTEGER, RollingHash.base, RollingHash.MOD, TokenHash.MOD in *.
  nia.
Qed.

Lemma nextHash_arithmetic_is_exact_witness :
  exists s0,
    RollingHash.new 2 = Some s0 /\
    let s := RollingHash.feed s0 (take 1 [5; 7; 11]) in
    let evicted := RollingHash.memory s !!! Z.to_nat (RollingHash.i s) in
    0 <= RollingHash.base * RollingHash.hash s <= MAX_SAFE_INTEGER /\
    0 <= RollingHash.maxBase s * evicted <= MAX_SAFE_INTEGER /\
    0 <= RollingHash.base * RollingHash.hash s + 7
         + RollingHash.maxBase s * evicted <= MAX_SAFE_INTEGER.
Proof.
  apply (nextHash_arithmetic_is_exact 2 [5; 7; 11] 1 7).
  - lia.
  - repeat constructor; done.
  - reflexivity.
Defined.

(** *** TokenHash *)

(** The product that [hashToken] reduces modulo [MOD] is a non-negative
    safe integer at every character, code units being below [2^16]. *)
Theorem hashToken_arithmetic_is_exact (pre post : token) (c : N) :
  (c < 65536)%N ->
  TokenHash.hashToken (pre ++ c :: post)
  = fold_left (fun hash c => ((hash + Z.of_N c) * TokenHash.base) `rem` TokenHash.MOD)
      post (((TokenHash.hashToken pre + Z.of_N c) * TokenHash.base) `rem` TokenHash.MOD) /\
  0 <= (TokenHash.hashToken pre + Z.of_N c) * TokenHash.base <= MAX_SAFE_INTEGER.
Proof.
  intros Hc. split.
  - unfold TokenHash.hashToken. by rewrite fold_left_app.
  - pose proof (hashToken_range pre).
    unfold MAX_SAFE_INTEGER, TokenHash.base, TokenHash.MOD in *. nia.
Qed.

Lemma hashToken_arithmetic_is_exact_witness :
  0 <= (TokenHash.hashToken [73%N] + Z.of_N 68) * TokenHash.base <= MAX_SAFE_INTEGER.
Proof. apply (hashToken_arithmetic_is_exact [73%N] [] 68%N). lia. Defined.

(** *** WinnowFilter *)

Lemma rescan_tiebreak buffer w bp :
  0 < w -> 0 <= bp < w ->
  forall fuel c m,
    0 <= c <= w - 1 -> (Z.to_nat (w - 1 - c) <= fuel)%nat ->
    let slot c := (bp + 1 + c) `mod` w in
    exists m',
      WinnowFilter.rescan fuel buffer w bp (slot c) m = Some m' /\
      ((m' = m /\
        forall c', c <= c' < w - 1 ->
          buffer !!! Z.to_nat m < buffer !!! Z.to_nat (slot c'))
       \/
       exists c0, c <= c0 < w - 1 /\ m' = slot c0 /\
         buffer !!! Z.to_nat (slot c0) <= buffer !!! Z.to_nat m /\
         (forall c', c <= c' < w - 1 ->
            buffer !!! Z.to_nat (slot c0) <= buffer !!! Z.to_nat (slot c')) /\
         (forall c', c0 < c' < w - 1 ->
            buffer !!! Z.to_nat (slot c0) < buffer !!! Z.to_nat (slot c'))).
Proof.
  intros Hw Hbp. induction fuel as [|fuel IH]; intros c m Hc Hfuel slot.
  - assert (c = w - 1) as -> by lia.
    simpl. unfold slot. rewrite (proj2 (slot_after w bp (w - 1) Hw Hbp Hc)) by done.
    rewrite Z.eqb_refl. simpl. exists m. split; [done|]. left. split; [done|]. lia.
  - rewrite rescan_S.
    destruct (Z.eqb_spec (slot c) bp) as [Heq|Hne]; simpl.
    + exists m. apply slot_after in Heq; [|done..].
      split; [done|]. left. split; [done|]. lia.
    + assert (c < w - 1) as Hlt.
      { destruct (decide (c = w - 1)) as [->|]; [|lia].
        exfalso. apply Hne. by apply slot_after. }
      assert ((slot c + 1) `rem` w = slot (c + 1)) as ->.
      { unfold slot. pose proof (Z.mod_pos_bound (bp + 1 + c) w Hw).
        rewrite mod_succ_rem by lia. f_equal. lia. }
      set (m1 := if buffer !!! Z.to_nat (slot c) <=? buffer !!! Z.to_nat m
                 then slot c else m).
      destruct (IH (c + 1) m1 ltac:(lia) ltac:(lia)) as (m' & Hres & Hcase).
      exists m'. split; [exact Hres|].
      subst m1. unfold slot in *. clear slot. cbv beta in *.
      destruct (Z.leb_spec (buffer !!! Z.to_nat ((bp + 1 + c) `mod` w))
                  (buffer !!! Z.to_nat m)) as [Hle|Hgt].
      * right. destruct Hcase as [[-> Hall]|(c0 & Hc0 & -> & Hle0 & Hall & Hstrict)].
        -- exists c. split_and!; try done; try lia.
           ++ intros c' Hc'. destruct (decide (c' = c)) as [->|]; [lia|].
              specialize (Hall c' ltac:(lia)). lia.
           ++ intros c' Hc'. apply Hall. lia.
        -- exists c0. split_and!; try done; try lia.
           intros c' Hc'. destruct (decide (c' = c)) as [->|]; [lia|].
           apply Hall. lia.
      * destruct Hcase as [[-> Hall]|(c0 & Hc0 & -> & Hle0 & Hall & Hstrict)].
        -- left. split; [done|].
           intros c' Hc'. destruct (decide (c' = c)) as [->|]; [lia|].
           apply Hall. lia.
        -- right. exists c0. split_and!; try done; try lia.
           intros c' Hc'. destruct (decide (c' = c)) as [->|]; [lia|].
           apply Hall. lia.
Qed.

Lemma slot_of_index w bp j :
  0 < w -> 0 <= bp < w -> 0 <= j < w -> j <> bp ->
  let c := (j - bp - 1) `mod` w in
  0 <= c < w - 1 /\ (bp + 1 + c) `mod` w = j /\ (bp - j) `mod` w = w - 1 - c.
Proof.
  intros Hw Hbp Hj Hne c.
  pose proof (Z.mod_pos_bound (j - bp - 1) w Hw) as Hc. fold c in Hc.
  assert ((bp + 1 + c) `mod` w = j) as Hslot.
  { unfold c. rewrite Z.add_mod_idemp_r by lia.
    replace (bp + 1 + (j - bp - 1)) with j by lia. by apply Z.mod_small. }
  assert (c <> w - 1) as Hc'.
  { intros Heq. rewrite Heq in Hslot.
    rewrite (proj2 (slot_after w bp (w - 1) Hw Hbp ltac:(lia))) in Hslot by done.
    lia. }
  split; [lia|]. split; [done|].
  destruct (decide (bp < j)).
  - assert (c = j - bp - 1) as Hcv by (unfold c; apply Z.mod_small; lia).
    apply (mod_eq_intro _ _ (-1)); lia.
  - assert (c = j - bp - 1 + w) as Hcv.
    { unfold c. apply (mod_eq_intro _ _ (-1)); lia. }
    apply (mod_eq_intro _ _ 0); lia.
Qed.

(** The rescan of the window returns a slot that holds the minimum.  Its
    tie-break: the entering slot [bufferPos] is kept only when it is
    strictly smaller than every other slot; otherwise the result is, among
    the other slots holding the minimum, the one written most recently. *)
Theorem rescan_minimum_and_tie_break (buffer : list Z) (w bp : Z) :
  0 < w -> 0 <= bp < w ->
  let age j := (bp - j) `mod` w in
  exists m,
    WinnowFilter.rescan (Z.to_nat w) buffer w bp ((bp + 1) `rem` w) bp = Some m /\
    0 <= m < w /\
    (forall j, 0 <= j < w -> buffer !!! Z.to_nat m <= buffer !!! Z.to_nat j) /\
    (m = bp <->
     forall j, 0 <= j < w -> j <> bp ->
       buffer !!! Z.to_nat bp < buffer !!! Z.to_nat j) /\
    (m <> bp ->
     forall j, 0 <= j < w -> j <> bp ->
       buffer !!! Z.to_nat j = buffer !!! Z.to_nat m -> age m <= age j).
Proof.
  intros Hw Hbp age.
  destruct (rescan_min buffer w bp Hw Hbp) as (m & Hres & Hm & Hmin).
  destruct (rescan_tiebreak buffer w bp Hw Hbp (Z.to_nat w) 0 bp ltac:(lia) ltac:(lia))
    as (m' & Hres' & Hcase).
  rewrite Z.add_0_r, <- rem_mod_nonneg in Hres' by lia.
  assert (m' = m) as -> by congruence.
  exists m. split; [done|]. split; [done|]. split; [done|].
  destruct Hcase as [[-> Hall]|(c0 & Hc0 & -> & Hle0 & Hall & Hstrict)].
  - split; [|done]. split; [|done]. intros _ j Hj Hne.
    destruct (slot_of_index w bp j Hw Hbp Hj Hne) as (Hc & Hslot & _).
    specialize (Hall _ Hc). by rewrite Hslot in Hall.
  - assert ((bp + 1 + c0) `mod` w <> bp) as Hne0.
    { intros Heq. apply slot_after in Heq; [lia|done|done|lia]. }
    pose proof (Z.mod_pos_bound (bp + 1 + c0) w Hw) as Hm0.
    split.
    + split; [done|]. intros Hall'. exfalso.
      specialize (Hall' _ Hm0 Hne0). lia.
    + intros _ j Hj Hne Heq.
      destruct (slot_of_index w bp j Hw Hbp Hj Hne) as (Hc & Hslot & Hage).
      destruct (slot_of_index w bp _ Hw Hbp Hm0 Hne0) as (Hc' & Hslot' & Hage').
      unfold age. rewrite Hage, Hage'.
      set (c := (j - bp - 1) `mod` w) in *.
      set (c1 := ((bp + 1 + c0) `mod` w - bp - 1) `mod` w) in *.
      assert (c1 = c0) as Hc1.
      { unfold c1. pose proof (Z.div_mod (bp + 1 + c0) w ltac:(lia)) as Hdm.
        apply (mod_eq_intro _ _ (- ((bp + 1 + c0) `div` w))); lia. }
      rewrite Hc1.
      destruct (decide (c0 < c)) as [Hlt|]; [|lia]. exfalso.
      specialize (Hstrict c ltac:(lia)). rewrite Hslot in Hstrict. lia.
Qed.

Lemma rescan_minimum_and_tie_break_witness :
  let buffer := [5; 7; 5] in
  let age j := (2 - j) `mod` 3 in
  exists m,
    WinnowFilter.rescan (Z.to_nat 3) buffer 3 2 ((2 + 1) `rem` 3) 2 = Some m /\
    0 <= m < 3 /\
    (forall j, 0 <= j < 3 -> buffer !!! Z.to_nat m <= buffer !!! Z.to_nat j) /\
    (m = 2 <->
     forall j, 0 <= j < 3 -> j <> 2 ->
       buffer !!! Z.to_nat 2 < buffer !!! Z.to_nat j) /\
    (m <> 2 ->
     forall j, 0 <= j < 3 -> j <> 2 ->
       buffer !!! Z.to_nat j = buffer !!! Z.to_nat m -> age m <= age j).
Proof. apply (rescan_minimum_and_tie_break [5; 7; 5] 3 2); lia. Defined.




(** Density of the selection: among any [w] consecutive k-grams of the
    file, one is the start of an emitted fingerprint, and its hash is the
    smallest rolling hash of the [w]. *)
Theorem every_window_has_a_fingerprint
    (k w : Z) (kgramData : bool) (tokens : list token) (a : Z) :
  1 <= k -> 1 <= w -> 0 <= a ->
  a + w + k - 1 <= Z.of_nat (length tokens) ->
  exists s0 fps fp,
    RollingHash.new k = Some s0 /\
    WinnowFilter.fingerprints (WinnowFilter.mk k w kgramData) tokens = Some fps /\
    fp ∈ fps /\
    a <= Fingerprint.start fp < a + w /\
    Fingerprint.hash fp
      = kgramHash (rolling_outputs s0 tokens) k (Fingerprint.start fp) /\
    forall j, a <= j < a + w ->
      Fingerprint.hash fp <= kgramHash (rolling_outputs s0 tokens) k j.
Proof.
  intros Hk Hw Ha Hlen.
  destruct (window_minimum_emitted k w kgramData tokens a Hk Hw Ha Hlen)
    as (s0 & fps & fp & i & Hnew & Hres & Hfp & Hi & Hstart & Hhash & Hmin).
  exists s0, fps, fp. rewrite Hstart. split_and!; try done; try lia.
  intros j Hj. rewrite Hhash.
  replace j with (a + (j - a)) by lia. apply Hmin. lia.
Qed.

Lemma every_window_has_a_fingerprint_witness :
  exists s0 fps fp,
    RollingHash.new 1 = Some s0 /\
    WinnowFilter.fingerprints (WinnowFilter.mk 1 2 false)
      [[65%N]; [66%N]; [66%N]; [66%N]] = Some fps /\
    fp ∈ fps /\
    2 <= Fingerprint.start fp < 2 + 2 /\
    Fingerprint.hash fp
      = kgramHash (rolling_outputs s0 [[65%N]; [66%N]; [66%N]; [66%N]]) 1
          (Fingerprint.start fp) /\
    forall j, 2 <= j < 2 + 2 ->
      Fingerprint.hash fp
      <= kgramHash (rolling_outputs s0 [[65%N]; [66%N]; [66%N]; [66%N]]) 1 j.
Proof.
  apply (every_window_has_a_fingerprint 1 2 false
           [[65%N]; [66%N]; [66%N]; [66%N]] 2); simpl; lia.
Defined.








(** *** Region *)

(** [Region.compare] orders regions by start row, start column, end row
    and end column: it is zero exactly on equal coordinates, changes sign
    when its arguments are swapped, and is transitive. *)
Theorem region_compare_is_a_total_order (a b c : Region.t) :
  (Region.compare a b = 0 <-> a = b) /\
  Region.compare b a = - Region.compare a b /\
  (Region.compare a b < 0 <->
   Region.startRow a < Region.startRow b \/
   (Region.startRow a = Region.startRow b /\
    (Region.startCol a < Region.startCol b \/
     (Region.startCol a = Region.startCol b /\
      (Region.endRow a < Region.endRow b \/
       (Region.endRow a = Region.endRow b /\
        Region.endCol a < Region.endCol b)))))) /\
  (Region.compare a b <= 0 /\ Region.compare b c <= 0 ->
   Region.compare a c <= 0).
Proof.
  destruct a as [a1 a2 a3 a4], b as [b1 b2 b3 b4], c as [c1 c2 c3 c4].
  unfold Region.compare. simpl. split_and!.
  - split.
    + intros H. f_equal; repeat (case_match; simpl in * ); lia.
    + intros [= -> -> -> ->]. rewrite !Z.sub_diag. done.
  - repeat (case_match; simpl in * ); lia.
  - repeat (case_match; simpl in * ); lia.
  - repeat (case_match; simpl in * ); lia.
Qed.

Lemma region_compare_witness :
  Region.compare (Region.mk 0 0 1 0) (Region.mk 1 0 2 5) <= 0.
Proof.
  apply (region_compare_is_a_total_order
           (Region.mk 0 0 1 0) (Region.mk 1 0 2 0) (Region.mk 1 0 2 5)).
  split; vm_compute; discriminate.
Defined.

(** [overlapsWith] does not depend on the order of the two regions, and
    with [a] first in the order of [compare] it holds exactly when [b]
    starts strictly before [a] ends, so regions that only touch do not
    overlap. *)
Theorem region_overlap_is_symmetric (a b : Region.t) :
  Region.overlapsWith a b = Region.overlapsWith b a /\
  (Region.compare a b <= 0 ->
   (Region.overlapsWith a b = true <->
    Region.startRow b < Region.endRow a \/
    (Region.startRow b = Region.endRow a /\ Region.startCol b < Region.endCol a))).
Proof.
  destruct a as [a1 a2 a3 a4], b as [b1 b2 b3 b4].
  unfold Region.overlapsWith, Region.compare. simpl. split.
  - repeat (case_match; simpl in * ); try lia; try done.
  - intros H. repeat (case_match; simpl in * ); split; intros; try lia; try done.
Qed.

Lemma region_overlap_witness :
  Region.overlapsWith (Region.mk 0 0 1 0) (Region.mk 1 0 2 0) = true <->
  1 < 1 \/ (1 = 1 /\ 0 < 0).
Proof.
  apply (region_overlap_is_symmetric (Region.mk 0 0 1 0) (Region.mk 1 0 2 0)).
  vm_compute. discriminate.
Defined.

Lemma covers_refl r : covers r r.
Proof. unfold covers, pos_le. lia. Qed.

Lemma covers_trans x y z : covers x y -> covers y z -> covers x z.
Proof. unfold covers, pos_le. lia. Qed.

Lemma covers_antisym x y : covers x y -> covers y x -> x = y.
Proof.
  destruct x, y. unfold covers, pos_le. simpl. intros H1 H2.
  f_equal; lia.
Qed.

(** [Region.merge] is commutative, idempotent and associative on valid
    regions. *)
Theorem region_merge_is_a_semilattice (a b c : Region.t) :
  region_wf a -> region_wf b -> region_wf c ->
  Region.merge a b = Region.merge b a /\
  Region.merge a a = inr a /\
  (exists ab bc abc,
     Region.merge a b = inr ab /\ Region.merge b c = inr bc /\
     Region.merge ab c = inr abc /\ Region.merge a bc = inr abc).
Proof.
  intros Ha Hb Hc.
  destruct (merge_wf a b Ha Hb) as (ab & Hab & Hwab & Hab1 & Hab2 & Hableast).
  destruct (merge_wf b a Hb Ha) as (ba & Hba & _ & Hba1 & Hba2 & Hbaleast).
  destruct (merge_wf a a Ha Ha) as (aa & Haa & _ & Haa1 & _ & Haaleast).
  destruct (merge_wf b c Hb Hc) as (bc & Hbc & Hwbc & Hbc1 & Hbc2 & Hbcleast).
  destruct (merge_wf ab c Hwab Hc) as (abc & Habc & _ & H1 & H2 & Hleast).
  destruct (merge_wf a bc Ha Hwbc) as (abc' & Habc' & _ & H1' & H2' & Hleast').
  split; [|split].
  - rewrite Hab, Hba. f_equal. apply covers_antisym.
    + exact (Hbaleast ab Hab2 Hab1).
    + exact (Hableast ba Hba2 Hba1).
  - rewrite Haa. f_equal. apply covers_antisym; [exact Haa1|].
    exact (Haaleast a (covers_refl a) (covers_refl a)).
  - exists ab, bc, abc. split_and!; try done.
    rewrite Habc'. f_equal. apply covers_antisym.
    + apply Hleast.
      * apply Hableast; [exact H1'|exact (covers_trans _ _ _ H2' Hbc1)].
      * exact (covers_trans _ _ _ H2' Hbc2).
    + apply Hleast'.
      * exact (covers_trans _ _ _ H1 Hab1).
      * apply Hbcleast; [exact (covers_trans _ _ _ H1 Hab2)|exact H2].
Qed.

Lemma region_merge_is_a_semilattice_witness :
  Region.merge (Region.mk 0 0 1 0) (Region.mk 1 0 2 0)
  = Region.merge (Region.mk 1 0 2 0) (Region.mk 0 0 1 0).
Proof.
  apply (region_merge_is_a_semilattice
           (Region.mk 0 0 1 0) (Region.mk 1 0 2 0) (Region.mk 2 0 2 5));
    reflexivity.
Defined.

(** *** Matching of fingerprints *)

Section Grouping.
Context {A : Type} (key : A -> Z).

Lemma group_get_push h h' x (m : list (Z * list A)) :
  group_get h (group_push h' x m)
  = if h' =? h then Some (default [] (group_get h m) ++ [x])
    else group_get h m.
Proof.
  induction m as [|[h0 xs] r IH]; simpl.
  - destruct (Z.eqb_spec h' h) as [->|Hne]; [done|].
    by destruct (Z.eqb_spec h' h).
  - destruct (Z.eqb_spec h0 h') as [->|Hne]; simpl.
    + destruct (Z.eqb_spec h' h) as [->|Hne']; [done|done].
    + destruct (Z.eqb_spec h0 h) as [->|Hne'].
      * destruct (Z.eqb_spec h' h) as [->|]; [done|done].
      * apply IH.
Qed.

Lemma group_get_pushAll h (l : list A) : forall m,
  group_get h (pushAll key l m)
  = match group_get h m, filter (fun x => key x = h) l with
    | None, [] => None
    | o, f => Some (default [] o ++ f)
    end.
Proof.
  unfold pushAll.
  induction l as [|x r IH]; intros m; simpl.
  - destruct (group_get h m); simpl; [by rewrite app_nil_r|done].
  - rewrite IH, group_get_push. rewrite filter_cons.
    destruct (Z.eqb_spec (key x) h) as [Heq|Hne].
    + destruct (decide (key x = h)); [|done].
      destruct (group_get h m); simpl; by rewrite <- ?app_assoc.
    + destruct (decide (key x = h)); [done|]. done.
Qed.

Lemma group_push_keys h x (m : list (Z * list A)) :
  (group_push h x m).*1 = if decide (h ∈ m.*1) then m.*1 else m.*1 ++ [h].
Proof.
  induction m as [|[h0 xs] r IH].
  - cbn [group_push fmap list_fmap fst].
    destruct (decide (h ∈ [])) as [Hin|]; [by apply elem_of_nil in Hin|done].
  - cbn [group_push]. destruct (Z.eqb_spec h0 h) as [->|Hne].
    + rewrite !fmap_cons. cbn [fst].
      destruct (decide (h ∈ h :: r.*1)) as [|Hn]; [done|].
      exfalso. apply Hn, elem_of_cons. by left.
    + rewrite !fmap_cons, IH. cbn [fst].
      destruct (decide (h ∈ r.*1)) as [Hin|Hn].
      * destruct (decide (h ∈ h0 :: r.*1)) as [|Hn']; [done|].
        exfalso. apply Hn', elem_of_cons. by right.
      * destruct (decide (h ∈ h0 :: r.*1)) as [Hin'|]; [|done].
        apply elem_of_cons in Hin' as [->|]; done.
Qed.

Lemma pushAll_NoDup (l : list A) : forall m,
  NoDup m.*1 -> NoDup (pushAll key l m).*1.
Proof.
  unfold pushAll. induction l as [|x r IH]; intros m Hm; simpl; [done|].
  apply IH. rewrite group_push_keys. case_decide; [done|].
  apply NoDup_app. split; [done|]. split; [|apply NoDup_singleton].
  intros y Hy Hy'. apply list_elem_of_singleton in Hy' as ->. done.
Qed.

Lemma group_get_elem_of h xs (m : list (Z * list A)) :
  NoDup m.*1 -> (h, xs) ∈ m <-> group_get h m = Some xs.
Proof.
  induction m as [|[h0 ys] r IH]; simpl; intros Hnd.
  - split; [intros Hin; by apply elem_of_nil in Hin|done].
  - apply NoDup_cons in Hnd as [Hnotin Hnd].
    destruct (Z.eqb_spec h0 h) as [->|Hne].
    + split.
      * intros Hin. apply elem_of_cons in Hin as [[= ->]|Hin]; [done|].
        exfalso. apply Hnotin. apply list_elem_of_fmap. by exists (h, xs).
      * intros [= ->]. by left.
    + rewrite <- IH by done. split.
      * intros Hin. apply elem_of_cons in Hin as [[= -> ->]|Hin]; done.
      * intros Hin. by right.
Qed.

Lemma hashMap_groups h xs (l : list A) :
  (h, xs) ∈ pushAll key l [] <->
  xs = filter (fun x => key x = h) l /\ xs <> [].
Proof.
  rewrite group_get_elem_of by (apply pushAll_NoDup; constructor).
  rewrite group_get_pushAll. simpl.
  destruct (filter (fun x => key x = h) l) as [|y ys] eqn:E.
  - split; [done|]. by intros [-> ?].
  - split; [by intros [= <-]|]. by intros [-> _].
Qed.
End Grouping.

Lemma findMatches_flat_map fps1 fps2 m :
  In m (PascalPlagiarismDetector.findMatches fps1 fps2) <->
  exists x y,
    x ∈ fps1 /\ y ∈ fps2 /\
    Fingerprint.hash (PascalPlagiarismDetector.fp x)
      = Fingerprint.hash (PascalPlagiarismDetector.fp y) /\
    m = PascalPlagiarismDetector.mkMatch x y
          (Z.abs (PascalPlagiarismDetector.position x
                  - PascalPlagiarismDetector.position y)).
Proof.
  unfold PascalPlagiarismDetector.findMatches. cbv zeta.
  set (key := fun e => Fingerprint.hash (PascalPlagiarismDetector.fp e)).
  change (PascalPlagiarismDetector.hashMap fps1) with (pushAll key fps1 []).
  change (PascalPlagiarismDetector.hashMap fps2) with (pushAll key fps2 []).
  rewrite in_flat_map. split.
  - intros ([h xs] & Hin & Hm).
    apply list_elem_of_In, hashMap_groups in Hin as [-> Hne].
    destruct (group_get h (pushAll key fps2 [])) as [ys|] eqn:E; [|done].
    apply group_get_elem_of in E; [|apply pushAll_NoDup; constructor].
    apply hashMap_groups in E as [-> Hne'].
    apply in_flat_map in Hm as (x & Hx & Hm).
    apply in_map_iff in Hm as (y & <- & Hy).
    apply list_elem_of_In, list_elem_of_filter in Hx as [Hkx Hx].
    apply list_elem_of_In, list_elem_of_filter in Hy as [Hky Hy].
    exists x, y. split_and!; try done. unfold key in *. congruence.
  - intros (x & y & Hx & Hy & Hh & ->).
    set (h := key x).
    exists (h, filter (fun e => key e = h) fps1). split.
    + apply list_elem_of_In, hashMap_groups. split; [done|].
      intros Hnil. assert (x ∈ filter (fun e => key e = h) fps1) as Hin
        by (by apply list_elem_of_filter).
      rewrite Hnil in Hin. by apply elem_of_nil in Hin.
    + assert (group_get h (pushAll key fps2 [])
              = Some (filter (fun e => key e = h) fps2)) as ->.
      { apply group_get_elem_of; [apply pushAll_NoDup; constructor|].
        apply hashMap_groups. split; [done|].
        intros Hnil. assert (y ∈ filter (fun e => key e = h) fps2) as Hin.
        { apply list_elem_of_filter. split; [|done]. unfold h, key. congruence. }
        rewrite Hnil in Hin. by apply elem_of_nil in Hin. }
      apply in_flat_map. exists x. split.
      * apply list_elem_of_In, list_elem_of_filter. by split.
      * apply in_map_iff. exists y. split; [done|].
        apply list_elem_of_In, list_elem_of_filter. split; [|done].
        unfold h, key. congruence.
Qed.


(** The candidate matches of [findSharedRegions] are exactly the pairs made
    of a fingerprint of the first file and a fingerprint of the second file
    with the same hash; [distance] is the distance of their positions. *)
Theorem matches_are_the_pairs_with_equal_hash
    (fps1 fps2 : list PascalPlagiarismDetector.EnhancedFingerprint)
    (m : PascalPlagiarismDetector.FingerprintMatch) :
  m ∈ PascalPlagiarismDetector.findMatches fps1 fps2 <->
  PascalPlagiarismDetector.fp1 m ∈ fps1 /\
  PascalPlagiarismDetector.fp2 m ∈ fps2 /\
  Fingerprint.hash (PascalPlagiarismDetector.fp (PascalPlagiarismDetector.fp1 m))
    = Fingerprint.hash (PascalPlagiarismDetector.fp (PascalPlagiarismDetector.fp2 m)) /\
  PascalPlagiarismDetector.distance m
    = Z.abs (PascalPlagiarismDetector.position (PascalPlagiarismDetector.fp1 m)
             - PascalPlagiarismDetector.position (PascalPlagiarismDetector.fp2 m)).
Proof.
  rewrite list_elem_of_In, findMatches_flat_map. split.
  - intros (x & y & Hx & Hy & Hh & ->). by simpl.
  - intros (Hx & Hy & Hh & Hd). destruct m as [x y dist]. simpl in *.
    exists x, y. by subst.
Qed.

Lemma ratio_zero n : ratio 0 n = 0%Qc.
Proof.
  apply Qc_is_canon. rewrite ratio_Q. simpl.
  unfold Qdiv. rewrite Qmult_0_l. reflexivity.
Qed.

Lemma findSharedRegions_no_match d fps1 fps2 tokens1 tokens2 :
  (forall x y, x ∈ fps1 -> y ∈ fps2 ->
     Fingerprint.hash (PascalPlagiarismDetector.fp x)
     <> Fingerprint.hash (PascalPlagiarismDetector.fp y)) ->
  PascalPlagiarismDetector.findSharedRegions d fps1 fps2 tokens1 tokens2 = inr [].
Proof.
  intros Hdis. unfold PascalPlagiarismDetector.findSharedRegions.
  destruct (PascalPlagiarismDetector.findMatches fps1 fps2) as [|m ms] eqn:E; [done|].
  exfalso.
  assert (In m (PascalPlagiarismDetector.findMatches fps1 fps2)) as Hin
    by (rewrite E; by left).
  apply findMatches_flat_map in Hin as (x & y & Hx & Hy & Hh & _).
  by apply (Hdis x y).
Qed.

(** Two files without a common fingerprint hash compare as similarity 0,
    with no shared fingerprint and no shared region. *)
Theorem no_common_hash_gives_zero_similarity
    (k w : Z) (d : PascalPlagiarismDetector.t) (tokens1 tokens2 : list token)
    (fps1 fps2 : list Fingerprint.t) :
  1 <= k -> PascalPlagiarismDetector.new k w = inr d ->
  WinnowFilter.fingerprints (WinnowFilter.mk k w true) tokens1 = Some fps1 ->
  WinnowFilter.fingerprints (WinnowFilter.mk k w true) tokens2 = Some fps2 ->
  (forall x y, x ∈ fps1 -> y ∈ fps2 -> Fingerprint.hash x <> Fingerprint.hash y) ->
  PascalPlagiarismDetector.compareTwoFiles d tokens1 tokens2
  = inr (PascalPlagiarismDetector.mkResult 0%Qc 0%Qc 0%Qc 0 []).
Proof.
  intros Hk Hnew H1 H2 Hdis. unfold PascalPlagiarismDetector.new in Hnew.
  destruct (Z.ltb_spec w k) as [|Hwk]; [done|]. injection Hnew as <-.
  set (d := PascalPlagiarismDetector.mk k w (WinnowFilter.mk k w true)).
  assert (hash_set fps1 ∩ hash_set fps2 = ∅) as Hempty.
  { apply set_eq. intros h. rewrite elem_of_intersection. unfold hash_set.
    rewrite !elem_of_list_to_set, !list_elem_of_fmap. split; [|set_solver].
    intros [(x & -> & Hx) (y & Hxy & Hy)]. by destruct (Hdis x y). }
  unfold PascalPlagiarismDetector.compareTwoFiles.
  destruct (generateFingerprints_spec d k w tokens1) as (f1 & rs1 & Hf1 & -> & _);
    [lia|lia|done|done|].
  destruct (generateFingerprints_spec d k w tokens2) as (f2 & rs2 & Hf2 & -> & _);
    [lia|lia|done|done|].
  assert (f1 = fps1) as -> by congruence. assert (f2 = fps2) as -> by congruence.
  cbn [rbind PascalPlagiarismDetector.fingerprints
       PascalPlagiarismDetector.positionedFingerprints].
  rewrite findSharedRegions_no_match.
  2:{ intros x y Hx Hy.
      apply list_elem_of_fmap in Hx as (x' & -> & Hx').
      apply list_elem_of_fmap in Hy as (y' & -> & Hy'). simpl. by apply Hdis. }
  cbn [rbind]. rewrite filter_elem_of_intersection, Hempty, size_empty.
  rewrite !ratio_zero. f_equal. f_equal; by repeat case_match.
Qed.

Lemma no_common_hash_witness :
  PascalPlagiarismDetector.compareTwoFiles
    (PascalPlagiarismDetector.mk 1 1 (WinnowFilter.mk 1 1 true))
    [[65%N]] [[66%N]]
  = inr (PascalPlagiarismDetector.mkResult 0%Qc 0%Qc 0%Qc 0 []).
Proof.
  apply (no_common_hash_gives_zero_similarity 1 1
           (PascalPlagiarismDetector.mk 1 1 (WinnowFilter.mk 1 1 true))
           [[65%N]] [[66%N]]
           [Fingerprint.mk (Some [[65%N]]) 15019262 0 0]
           [Fingerprint.mk (Some [[66%N]]) 15766549 0 0]).
  - lia.
  - reflexivity.
  - vm_compute. reflexivity.
  - vm_compute. reflexivity.
  - intros x y Hx Hy.
    apply list_elem_of_singleton in Hx as ->.
    apply list_elem_of_singleton in Hy as ->. simpl. lia.
Defined.





(** [estimatePosition] places ten tokens on a line: for a token index
    [i >= 0] the line is at least 1, the column lies in 1..10, and the
    index is recovered as [(line - 1) * 10 + (column - 1)]. *)
Theorem estimatePosition_round_trip (i : Z) :
  0 <= i ->
  let p := PascalPlagiarismDetector.estimatePosition i in
  1 <= p.1 /\ 1 <= p.2 <= 10 /\ (p.1 - 1) * 10 + (p.2 - 1) = i.
Proof.
  intros Hi. unfold PascalPlagiarismDetector.estimatePosition. simpl.
  rewrite Z.rem_mod_nonneg by lia.
  pose proof (Z.div_pos i 10 Hi ltac:(lia)).
  pose proof (Z.mod_pos_bound i 10 ltac:(lia)).
  pose proof (Z.div_mod i 10 ltac:(lia)). lia.
Qed.

Lemma estimatePosition_round_trip_witness :
  let p := PascalPlagiarismDetector.estimatePosition 37 in
  1 <= p.1 /\ 1 <= p.2 <= 10 /\ (p.1 - 1) * 10 + (p.2 - 1) = 37.
Proof. apply (estimatePosition_round_trip 37). lia. Defined.

(** The estimated positions of two token indices [0 <= a <= b] are in
    order, so the [Region] built from them is accepted by the constructor:
    it spans from the position of [a] to the position of [b]. *)
Theorem estimated_positions_make_a_valid_region (a b : Z) :
  0 <= a <= b ->
  Region.new (PascalPlagiarismDetector.estimatePosition a).1
             (PascalPlagiarismDetector.estimatePosition a).2
             (PascalPlagiarismDetector.estimatePosition b).1
             (PascalPlagiarismDetector.estimatePosition b).2
  = inr (Region.mk (a `div` 10 + 1) (a `mod` 10 + 1)
                   (b `div` 10 + 1) (b `mod` 10 + 1)).
Proof.
  intros Hab. rewrite new_valid by by apply estimatePosition_ordered.
  unfold PascalPlagiarismDetector.estimatePosition. simpl.
  by rewrite !Z.rem_mod_nonneg by lia.
Qed.

Lemma estimated_positions_witness :
  Region.new (PascalPlagiarismDetector.estimatePosition 9).1
             (PascalPlagiarismDetector.estimatePosition 9).2
             (PascalPlagiarismDetector.estimatePosition 10).1
             (PascalPlagiarismDetector.estimatePosition 10).2
  = inr (Region.mk (9 `div` 10 + 1) (9 `mod` 10 + 1)
                   (10 `div` 10 + 1) (10 `mod` 10 + 1)).
Proof. apply (estimated_positions_make_a_valid_region 9 10). lia. Defined.

Lemma finalize_count d tokens1 tokens2 regions cluster regions' :
  PascalPlagiarismDetector.finalize d tokens1 tokens2 regions cluster = inr regions' ->
  (2 * length regions' <= 2 * length regions + length cluster)%nat.
Proof.
  unfold PascalPlagiarismDetector.finalize.
  destruct (Nat.leb_spec 2 (length cluster)) as [Hlen|Hlen].
  - destruct (PascalPlagiarismDetector.createSharedRegion _ _ _ _); simpl; [done|].
    intros [= <-]. rewrite length_app. simpl. lia.
  - intros [= <-]. lia.
Qed.

Lemma clusterStep_count d tokens1 tokens2 regions cluster m regions' cluster' :
  PascalPlagiarismDetector.clusterStep d tokens1 tokens2 (regions, cluster) m
    = inr (regions', cluster') ->
  (2 * length regions' + length cluster'
   <= 2 * length regions + length cluster + 1)%nat.
Proof.
  unfold PascalPlagiarismDetector.clusterStep.
  destruct (last cluster) as [lastMatch|].
  - case_match.
    + intros [= <- <-]. rewrite length_app. simpl. lia.
    + destruct (PascalPlagiarismDetector.finalize _ _ _ _ _) as [|r] eqn:E;
        simpl; [done|].
      intros [= <- <-]. apply finalize_count in E. simpl. lia.
  - intros [= <- <-]. rewrite length_app. simpl. lia.
Qed.

Lemma clusterLoop_count d tokens1 tokens2 matches :
  forall regions cluster regions' cluster',
  foldR (PascalPlagiarismDetector.clusterStep d tokens1 tokens2)
    (regions, cluster) matches = inr (regions', cluster') ->
  (2 * length regions' + length cluster'
   <= 2 * length regions + length cluster + length matches)%nat.
Proof.
  induction matches as [|m ms IH]; intros regions cluster regions' cluster'.
  - intros [= <- <-]. simpl. lia.
  - rewrite foldR_cons.
    destruct (PascalPlagiarismDetector.clusterStep _ _ _ _ _) as [|[r1 c1]] eqn:E;
      simpl; [done|].
    intros Hrun%IH. apply clusterStep_count in E. simpl. lia.
Qed.

Lemma mergeLoop_count rest : forall merged current merged' current',
  foldR PascalPlagiarismDetector.mergeStep (merged, current) rest
    = inr (merged', current') ->
  (length merged <= length merged' <= length merged + length rest)%nat.
Proof.
  induction rest as [|next rest IH]; intros merged current merged' current'.
  - intros [= <- <-]. simpl. lia.
  - rewrite foldR_cons. unfold PascalPlagiarismDetector.mergeStep at 1.
    case_match.
    + destruct (PascalPlagiarismDetector.mergeTwo _ _); simpl; [done|].
      intros Hrun%IH. simpl. lia.
    + simpl. intros Hrun%IH. rewrite length_app in Hrun. simpl in *. lia.
Qed.

Lemma mergeOverlappingRegions_count regions merged :
  PascalPlagiarismDetector.mergeOverlappingRegions regions = inr merged ->
  (length merged <= length regions)%nat /\ (regions <> [] -> merged <> []).
Proof.
  unfold PascalPlagiarismDetector.mergeOverlappingRegions.
  case_match; [by intros [= <-]|].
  pose proof (sort_by_length
                (fun r => PascalPlagiarismDetector.start
                            (PascalPlagiarismDetector.file1Range r)) regions) as Hlen.
  destruct (sort_by _ regions) as [|first rest].
  - intros [= <-]. simpl in *. split; [lia|]. destruct regions; simpl in *; [done|lia].
  - destruct (foldR _ _ rest) as [|[m c]] eqn:E; simpl; [done|].
    intros [= <-]. apply mergeLoop_count in E. rewrite length_app. simpl in *.
    split; [lia|]. intros _ Hnil. by apply app_eq_nil in Hnil as [_ ?].
Qed.

(** A shared region needs a cluster of at least two matches, and merging
    only lowers the number of regions: [findSharedRegions] returns at most
    half as many regions as there are matching fingerprint pairs.  In
    particular a single matching pair gives no region. *)
Theorem regions_need_two_matches_each
    (n1 n2 : Z) (d : PascalPlagiarismDetector.t)
    (fps1 fps2 : list PascalPlagiarismDetector.EnhancedFingerprint)
    (tokens1 tokens2 : list token) :
  Forall (ok_fp n1) fps1 -> Forall (ok_fp n2) fps2 ->
  exists regions,
    PascalPlagiarismDetector.findSharedRegions d fps1 fps2 tokens1 tokens2
      = inr regions /\
    (2 * length regions
     <= length (PascalPlagiarismDetector.findMatches fps1 fps2))%nat.
Proof.
  intros H1 H2.
  destruct (findSharedRegions_total n1 n2 d fps1 fps2 tokens1 tokens2 H1 H2)
    as (regions & Hres & _).
  exists regions. split; [done|].
  revert Hres. unfold PascalPlagiarismDetector.findSharedRegions.
  case_match; [intros [= <-]; simpl; lia|].
  unfold PascalPlagiarismDetector.clusterMatchesIntoRegions.
  destruct (foldR _ _ _) as [|[r c]] eqn:E; simpl; [done|].
  destruct (PascalPlagiarismDetector.finalize _ _ _ _ _) as [|r'] eqn:E'; simpl; [done|].
  intros [Hm _]%mergeOverlappingRegions_count.
  apply clusterLoop_count in E. apply finalize_count in E'.
  rewrite sort_by_length in E. simpl in E. lia.
Qed.

Lemma regions_need_two_matches_witness :
  exists regions,
    PascalPlagiarismDetector.findSharedRegions
      (PascalPlagiarismDetector.mk 1 2 (WinnowFilter.mk 1 2 true))
      [PascalPlagiarismDetector.enhance (Fingerprint.mk None 7 0 0)]
      [PascalPlagiarismDetector.enhance (Fingerprint.mk None 7 3 3)]
      [] [] = inr regions /\
    (2 * length regions
     <= length (PascalPlagiarismDetector.findMatches
                  [PascalPlagiarismDetector.enhance (Fingerprint.mk None 7 0 0)]
                  [PascalPlagiarismDetector.enhance (Fingerprint.mk None 7 3 3)]))%nat.
Proof.
  apply (regions_need_two_matches_each 1 4).
  - apply Forall_singleton. unfold ok_fp. simpl. lia.
  - apply Forall_singleton. unfold ok_fp. simpl. lia.
Defined.

(** *** Range *)

(** A [Range] object always has [from < to]: the constructor throws
    otherwise.  A [to] of [-1] counts as omitted and is replaced by
    [from + 1], so that call never throws. *)
Theorem range_constructor_orders_its_bounds (from to : Z) :
  (forall r, Range.new from to = inr r ->
     Range.from r = from /\ Range.from r < Range.to r /\ 0 < Range.length r /\
     Range.to r = if to =? -1 then from + 1 else to) /\
  Range.new from (-1) = inr (Range.mk from (from + 1)) /\
  (to <> -1 ->
   (from < to -> Range.new from to = inr (Range.mk from to)) /\
   (to <= from -> Range.new from to = inl (Range.FromNotSmaller from to))).
Proof.
  unfold Range.new, Range.length. split_and!.
  - intros r. destruct (Z.eqb_spec to (-1)); cbv zeta.
    + destruct (Z.geb_spec from (from + 1)); [done|]. intros [= <-]. simpl. lia.
    + destruct (Z.geb_spec from to); [done|]. intros [= <-]. simpl. lia.
  - simpl. destruct (Z.geb_spec from (from + 1)); [lia|done].
  - intros Hto. destruct (Z.eqb_spec to (-1)); [done|].
    split; intros ?; destruct (Z.geb_spec from to); (done || lia).
Qed.

(** [Range.compare] orders ranges by [from], then by [to]: it is zero
    exactly on equal ranges, changes sign when its arguments are swapped,
    and is transitive. *)
Theorem range_compare_is_a_total_order (a b c : Range.t) :
  (Range.compare a b = 0 <-> a = b) /\
  Range.compare b a = - Range.compare a b /\
  (Range.compare a b < 0 <->
   Range.from a < Range.from b \/
   (Range.from a = Range.from b /\ Range.to a < Range.to b)) /\
  (Range.compare a b <= 0 /\ Range.compare b c <= 0 ->
   Range.compare a c <= 0).
Proof.
  destruct a as [a1 a2], b as [b1 b2], c as [c1 c2].
  unfold Range.compare. simpl. split_and!.
  - split.
    + destruct (Z.eqb_spec a1 b1); intros ?; f_equal; lia.
    + intros [= -> ->]. rewrite Z.eqb_refl. lia.
  - destruct (Z.eqb_spec a1 b1), (Z.eqb_spec b1 a1); lia.
  - destruct (Z.eqb_spec a1 b1); lia.
  - destruct (Z.eqb_spec a1 b1), (Z.eqb_spec b1 c1), (Z.eqb_spec a1 c1); lia.
Qed.

(** For two ranges whose larger end is not [-1] (so for all ranges at
    positions [>= 0]), [Range.merge] does not throw and returns the
    smallest range that contains both. *)
Theorem range_merge_is_smallest_cover (one other : Range.t) :
  Range.from one < Range.to one -> Range.from other < Range.to other ->
  Z.max (Range.to one) (Range.to other) <> -1 ->
  exists m,
    Range.merge one other = inr m /\
    Range.contains m one = true /\ Range.contains m other = true /\
    forall r, Range.contains r one = true -> Range.contains r other = true ->
      Range.contains r m = true.
Proof.
  intros H1 H2 Hmax. unfold Range.merge, Range.new.
  destruct (Z.eqb_spec (Z.max (Range.to one) (Range.to other)) (-1)); [done|].
  destruct (Z.geb_spec (Z.min (Range.from one) (Range.from other))
              (Z.max (Range.to one) (Range.to other))); [lia|].
  eexists. split; [done|]. unfold Range.contains. simpl.
  split_and!; [lia..|].
  intros r. rewrite !andb_true_iff, !Z.leb_le. lia.
Qed.

Lemma range_merge_witness :
  exists m,
    Range.merge (Range.mk 0 4) (Range.mk 2 7) = inr m /\
    Range.contains m (Range.mk 0 4) = true /\
    Range.contains m (Range.mk 2 7) = true /\
    forall r, Range.contains r (Range.mk 0 4) = true ->
      Range.contains r (Range.mk 2 7) = true ->
      Range.contains r m = true.
Proof.
  apply (range_merge_is_smallest_cover (Range.mk 0 4) (Range.mk 2 7));
    simpl; lia.
Defined.

(** When the larger end of two ranges is [-1], the constructor called by
    [Range.merge] takes it for an omitted argument: the result is the
    range of length 1 at the smaller start, and it fails to contain both
    arguments as soon as that start is below [-2]. *)
Theorem range_merge_with_larger_end_minus_one (one other : Range.t) :
  Range.from one < Range.to one -> Range.from other < Range.to other ->
  Z.max (Range.to one) (Range.to other) = -1 ->
  let m := Range.mk (Z.min (Range.from one) (Range.from other))
                    (Z.min (Range.from one) (Range.from other) + 1) in
  Range.merge one other = inr m /\
  (Z.min (Range.from one) (Range.from other) < -2 ->
   Range.contains m one && Range.contains m other = false).
Proof.
  intros H1 H2 Hmax m. unfold Range.merge, Range.new. rewrite Hmax. simpl.
  destruct (Z.geb_spec (Z.min (Range.from one) (Range.from other))
              (Z.min (Range.from one) (Range.from other) + 1)); [lia|].
  split; [done|]. intros Hmin. unfold Range.contains, m. simpl.
  apply andb_false_iff. rewrite !andb_false_iff, !Z.leb_gt. lia.
Qed.

Lemma range_merge_minus_one_witness :
  let m := Range.mk (Z.min (-5) (-2)) (Z.min (-5) (-2) + 1) in
  Range.merge (Range.mk (-5) (-3)) (Range.mk (-2) (-1)) = inr m /\
  (Z.min (-5) (-2) < -2 ->
   Range.contains m (Range.mk (-5) (-3)) && Range.contains m (Range.mk (-2) (-1))
   = false).
Proof.
  apply (range_merge_with_larger_end_minus_one
           (Range.mk (-5) (-3)) (Range.mk (-2) (-1))); simpl; lia.
Defined.

(** *** SharedFingerprint *)

Lemma partMap_get_push p g m :
  SharedFingerprint.partMap_get g (SharedFingerprint.partMap_push p m)
  = if TokenizedFile.ref g =? TokenizedFile.ref (SharedFingerprint.file p)
    then Some (default [] (SharedFingerprint.partMap_get g m) ++ [p])
    else SharedFingerprint.partMap_get g m.
Proof.
  induction m as [|[f parts] r IH]; simpl.
  - rewrite (Z.eqb_sym (TokenizedFile.ref (SharedFingerprint.file p))).
    by destruct (Z.eqb_spec (TokenizedFile.ref g)
                   (TokenizedFile.ref (SharedFingerprint.file p))).
  - destruct (Z.eqb_spec (TokenizedFile.ref f)
                (TokenizedFile.ref (SharedFingerprint.file p))) as [E|E]; simpl.
    + destruct (Z.eqb_spec (TokenizedFile.ref f) (TokenizedFile.ref g)) as [E'|E'],
        (Z.eqb_spec (TokenizedFile.ref g)
           (TokenizedFile.ref (SharedFingerprint.file p))) as [E''|E''];
        try done; lia.
    + destruct (Z.eqb_spec (TokenizedFile.ref f) (TokenizedFile.ref g)) as [E'|E'];
        [|done].
      destruct (Z.eqb_spec (TokenizedFile.ref g)
                  (TokenizedFile.ref (SharedFingerprint.file p))); [lia|done].
Qed.

Lemma partMap_push_length p m :
  length (SharedFingerprint.partMap_push p m)
  = match SharedFingerprint.partMap_get (SharedFingerprint.file p) m with
    | Some _ => length m
    | None => S (length m)
    end.
Proof.
  induction m as [|[f parts] r IH]; simpl; [done|].
  destruct (Z.eqb_spec (TokenizedFile.ref f)
              (TokenizedFile.ref (SharedFingerprint.file p))); simpl; [done|].
  rewrite IH. by case_match.
Qed.

(** [add] appends the part to the occurrences of its own file and leaves
    the occurrences of every other file as they are; the number of files
    grows by one exactly when the file had no occurrence yet. *)
Theorem shared_fingerprint_add_appends_occurrence
    (s : SharedFingerprint.t) (p : SharedFingerprint.part) (g : TokenizedFile.t) :
  SharedFingerprint.occurrencesOf (SharedFingerprint.add s p) g
  = (if TokenizedFile.ref g =? TokenizedFile.ref (SharedFingerprint.file p)
     then SharedFingerprint.occurrencesOf s g ++ [p]
     else SharedFingerprint.occurrencesOf s g) /\
  SharedFingerprint.fileCount (SharedFingerprint.add s p)
  = match SharedFingerprint.partMap_get (SharedFingerprint.file p)
            (SharedFingerprint.partMap s) with
    | Some _ => SharedFingerprint.fileCount s
    | None => S (SharedFingerprint.fileCount s)
    end /\
  SharedFingerprint.hash (SharedFingerprint.add s p) = SharedFingerprint.hash s.
Proof.
  unfold SharedFingerprint.occurrencesOf, SharedFingerprint.fileCount,
    SharedFingerprint.add. simpl.
  rewrite partMap_get_push, partMap_push_length. split_and!; try done.
  by case_match.
Qed.

(** *** PascalFingerprinter *)





(** *** FingerprintIndex *)
























